(** * XIAO ESP32S3 Sense audio/photo logger: a shallow embedding

    The sketch [audio_photo_logger.ino] takes a photo every
    [PHOTO_INTERVAL] milliseconds, polls the microphone and records a WAV
    clip when a sample is louder than [SOUND_THRESHOLD].

    Machine integers are [Z] with their wrap-around written out; the target
    is the ESP32-S3 (ILP32, little-endian), so [unsigned long], [uint32_t]
    and [size_t] are 32 bits wide and [int] is a 32-bit two's complement
    integer.  Bytes are [Z] in [0, 256).  Calls into the camera, the I2S
    driver, the heap and the SD card are recorded as a trace of events; what
    the hardware answers is read from an oracle record. *)

From Stdlib Require Import ZArith Lia Bool.
From stdpp Require Import base numbers list strings pretty gmap sorting.

Local Open Scope Z_scope.

(** ** Machine integers *)

Module Mach.

Definition u8 (x : Z) : Z := x mod 2 ^ 8.
Definition u16 (x : Z) : Z := x mod 2 ^ 16.
Definition u32 (x : Z) : Z := x mod 2 ^ 32.

(** Conversion of a 16-bit pattern to [int16_t]. *)
Definition s16 (x : Z) : Z :=
  let y := u16 x in if y <? 2 ^ 15 then y else y - 2 ^ 16.

(** Conversion to [int]; [fileCount++] goes through it. *)
Definition s32 (x : Z) : Z :=
  let y := u32 x in if y <? 2 ^ 31 then y else y - 2 ^ 32.

(** [a - b] on [unsigned long]. *)
Definition sub32 (a b : Z) : Z := u32 (a - b).

Definition is_byte (b : Z) : Prop := 0 <= b < 256.

(** The four bytes [x, x >> 8, x >> 16, x >> 24] of a [uint32_t], each
    narrowed to [uint8_t], in the order the initialiser lists them. *)
Definition le32 (x : Z) : list Z :=
  [u8 x; u8 (Z.shiftr x 8); u8 (Z.shiftr x 16); u8 (Z.shiftr x 24)].

(** Reading a little-endian field back. *)
Definition rd16 (l : list Z) : Z :=
  match l with
  | b0 :: b1 :: _ => b0 + 2 ^ 8 * b1
  | _ => 0
  end.

Definition rd32 (l : list Z) : Z :=
  match l with
  | b0 :: b1 :: b2 :: b3 :: _ => b0 + 2 ^ 8 * b1 + 2 ^ 16 * b2 + 2 ^ 24 * b3
  | _ => 0
  end.

End Mach.

Import Mach.

(** ** Settings *)

Definition RECORD_TIME : Z := 10.
Definition SAMPLE_RATE : Z := 16000.
Definition SAMPLE_BITS : Z := 16.
Definition WAV_HEADER_SIZE : Z := 44.
Definition VOLUME_GAIN : Z := 3.
Definition PHOTO_INTERVAL : Z := 10000.
Definition SOUND_THRESHOLD : Z := 5000.

(** Character codes of the chunk tags. *)
Definition tag (s : string) : list Z :=
  map (fun c => Z.of_nat (Ascii.nat_of_ascii c)) (String.list_ascii_of_string s).

(** ** WAV header *)

(** [generate_wav_header]: the 44 bytes copied into [wav_header].  The byte
    rate is computed from the [SAMPLE_RATE] setting, the sample-rate field
    from the argument. *)
Definition generate_wav_header (wav_size sample_rate : Z) : list Z :=
  let file_size := u32 (u32 (wav_size + WAV_HEADER_SIZE) - 8) in
  let byte_rate := u32 (u32 (SAMPLE_RATE * SAMPLE_BITS) / 8) in
  tag "RIFF" ++
  le32 file_size ++
  tag "WAVE" ++
  tag "fmt " ++
  [0x10; 0x00; 0x00; 0x00] ++
  [0x01; 0x00] ++
  [0x01; 0x00] ++
  le32 sample_rate ++
  le32 byte_rate ++
  [0x02; 0x00] ++
  [0x10; 0x00] ++
  tag "data" ++
  le32 wav_size.

(** Field accessors of the canonical RIFF/WAVE layout. *)
Definition hdr_file_size (h : list Z) : Z := rd32 (drop 4 h).
Definition hdr_fmt_size (h : list Z) : Z := rd32 (drop 16 h).
Definition hdr_format (h : list Z) : Z := rd16 (drop 20 h).
Definition hdr_channels (h : list Z) : Z := rd16 (drop 22 h).
Definition hdr_sample_rate (h : list Z) : Z := rd32 (drop 24 h).
Definition hdr_byte_rate (h : list Z) : Z := rd32 (drop 28 h).
Definition hdr_block_align (h : list Z) : Z := rd16 (drop 32 h).
Definition hdr_bits (h : list Z) : Z := rd16 (drop 34 h).
Definition hdr_data_size (h : list Z) : Z := rd32 (drop 40 h).

(** ** Hardware calls *)

(** One constructor per call the sketch makes into the camera driver, the
    SD file system, the heap and the I2S driver, with what the call
    returned.  [EvWrite path valid data] is [file.write(data, len)] on the
    handle obtained by opening [path]; [valid] tells whether that open had
    succeeded.  Serial output is left out. *)
Inductive event : Type :=
  | EvFbGet (got : bool)
  | EvFbReturn
  | EvOpen (path : string) (ok : bool)
  | EvWrite (path : string) (valid : bool) (data : list Z)
  | EvClose (path : string)
  | EvMalloc (size : Z) (ok : bool)
  | EvFree
  | EvRead (size : Z) (blocking : bool) (got : list Z)
  | EvDelay (ms : Z).

(** What the hardware answers during one pass of [loop]. *)
Record tick_env : Type := {
  clock_ms : Z;                   (* milliseconds since boot at [millis()] *)
  frame : option (list Z);        (* [esp_camera_fb_get]: NULL or a frame *)
  img_open : bool;                (* [fs.open] in [writeFile] *)
  mic_poll : list Z;              (* bytes the zero-timeout read can deliver *)
  wav_open : bool;                (* [SD.open] in [record_wav] *)
  heap_block : option (list Z);   (* [ps_malloc]: NULL or the block as found *)
  mic_bulk : list Z               (* bytes the blocking read can deliver *)
}.

(** [i2s_read] stores at most [size] bytes and reports how many. *)
Definition i2s_read (size : Z) (avail : list Z) : list Z :=
  take (Z.to_nat size) avail.

(** Contents of the card after a trace: opening with [FILE_WRITE] creates
    or truncates the file, a write on a valid handle appends. *)
Definition sd_step (sd : gmap string (list Z)) (ev : event) : gmap string (list Z) :=
  match ev with
  | EvOpen p true => <[p := []]> sd
  | EvWrite p true d => <[p := default [] (sd !! p) ++ d]> sd
  | _ => sd
  end.

Definition sd_after (sd : gmap string (list Z)) (tr : list event) : gmap string (list Z) :=
  foldl sd_step sd tr.

(** The [file.write] calls of a trace that go to [p]. *)
Definition writes_to (p : string) (tr : list event) : list (list Z) :=
  omap (fun ev => match ev with
                  | EvWrite q _ d => if decide (q = p) then Some d else None
                  | _ => None
                  end) tr.

Definition is_capture (ev : event) : bool :=
  match ev with EvFbGet _ => true | _ => false end.

Definition is_write (ev : event) : bool :=
  match ev with EvWrite _ _ _ => true | _ => false end.

(** ** File write and photo save *)

Definition writeFile (path : string) (open_ok : bool) (data : list Z) : list event :=
  if open_ok then [EvOpen path true; EvWrite path true data; EvClose path]
  else [EvOpen path false].

Definition photo_save (fileName : string) (e : tick_env) : list event :=
  match frame e with
  | None => [EvFbGet false]
  | Some buf => EvFbGet true :: writeFile fileName (img_open e) buf ++ [EvFbReturn]
  end.

(** ** Audio record *)

(** [(*(uint16_t *)(rec_buffer + i)) <<= VOLUME_GAIN]: a little-endian
    16-bit load at byte offset [i], the shift in [int], the store of the
    low 16 bits. *)
Definition gain_at (buf : list Z) (i : nat) : list Z :=
  let w := buf !!! i + 2 ^ 8 * buf !!! S i in
  let w' := u16 (Z.shiftl w VOLUME_GAIN) in
  <[S i := u8 (Z.shiftr w' 8)]> (<[i := u8 w']> buf).

(** [for (i = 0; i < sample_size; i += 2)]: at most [sample_size] rounds. *)
Fixpoint gain_loop (fuel i sample_size : nat) (buf : list Z) : list Z :=
  match fuel with
  | O => buf
  | S fuel' =>
      if (i <? sample_size)%nat
      then gain_loop fuel' (i + 2) sample_size (gain_at buf i)
      else buf
  end.

Definition apply_gain (sample_size : nat) (buf : list Z) : list Z :=
  gain_loop sample_size 0 sample_size buf.

Definition record_size : Z :=
  u32 (u32 (u32 (SAMPLE_RATE * SAMPLE_BITS) / 8) * RECORD_TIME).

Definition record_wav (audiofile : string) (e : tick_env) : list event :=
  let ok := wav_open e in
  let wav_header := generate_wav_header record_size SAMPLE_RATE in
  let started := [EvOpen audiofile ok; EvWrite audiofile ok wav_header] in
  match heap_block e with
  | None => started ++ [EvMalloc record_size false]
  | Some block =>
      let got := i2s_read record_size (mic_bulk e) in
      let sample_size := length got in
      let rec_buffer := apply_gain sample_size (got ++ drop sample_size block) in
      started ++
      [EvMalloc record_size true;
       EvRead record_size true got;
       EvWrite audiofile ok (take sample_size rec_buffer);
       EvClose audiofile;
       EvFree]
  end.

(** ** Setup and loop *)

Record state : Type := {
  camera_status : bool;
  sd_status : bool;
  fileCount : Z;
  lastPhotoTime : Z
}.

(** The globals as initialised at their declarations. *)
Definition power_on : state :=
  {| camera_status := false; sd_status := false; fileCount := 1; lastPhotoTime := 0 |}.

Record boot_env : Type := {
  i2s_begin : bool;        (* [I2S.begin] *)
  camera_init : bool;      (* [esp_camera_init(&config) == ESP_OK] *)
  sd_begin : bool;         (* [SD.begin(21)] *)
  card_present : bool      (* [SD.cardType() != CARD_NONE] *)
}.

(** [setup] either spins in [while (1)] or returns, after which the core
    calls [loop] again and again. *)
Inductive boot : Type :=
  | Halted
  | Running (st : state).

(** [CameraParameters] returns [void]; a failed [esp_camera_init] only
    prints. *)
Definition CameraParameters (b : boot_env) (st : state) : state := st.

Definition setup (b : boot_env) : boot :=
  let st := power_on in
  if negb (i2s_begin b) then Halted
  else
    let st := CameraParameters b st in
    let st := {| camera_status := true; sd_status := sd_status st;
                 fileCount := fileCount st; lastPhotoTime := lastPhotoTime st |} in
    if negb (sd_begin b) then Halted
    else if negb (card_present b) then Halted
    else Running {| camera_status := camera_status st; sd_status := true;
                    fileCount := fileCount st; lastPhotoTime := lastPhotoTime st |}.

Definition millis (e : tick_env) : Z := u32 (clock_ms e).

Definition image_name (n : Z) : string := "/image" +:+ pretty n +:+ ".jpg".
Definition audio_name (n : Z) : string := "/audio" +:+ pretty n +:+ ".wav".

(** The [int16_t sample] after the zero-timeout read of two bytes into it:
    bytes that were not delivered keep the initial 0. *)
Definition polled_sample (got : list Z) : Z :=
  s16 (default 0 (got !! 0%nat) + 2 ^ 8 * default 0 (got !! 1%nat)).

Definition photo_due (st : state) (e : tick_env) : bool :=
  PHOTO_INTERVAL <=? sub32 (millis e) (lastPhotoTime st).

Definition sound_detected (e : tick_env) : bool :=
  let got := i2s_read 2 (mic_poll e) in
  (0 <? Z.of_nat (length got)) && (SOUND_THRESHOLD <? Z.abs (polled_sample got)).

Definition loop (st : state) (e : tick_env) : state * list event :=
  if negb (camera_status st && sd_status st) then (st, [])
  else
    let now := millis e in
    let '(st1, tr1) :=
      if photo_due st e then
        let imgFile := image_name (fileCount st) in
        ({| camera_status := camera_status st; sd_status := sd_status st;
            fileCount := s32 (fileCount st + 1); lastPhotoTime := now |},
         photo_save imgFile e)
      else (st, []) in
    let got := i2s_read 2 (mic_poll e) in
    let tr2 := tr1 ++ [EvRead 2 false got] in
    if sound_detected e then
      let audioFile := audio_name (fileCount st1) in
      ({| camera_status := camera_status st1; sd_status := sd_status st1;
          fileCount := s32 (fileCount st1 + 1); lastPhotoTime := lastPhotoTime st1 |},
       tr2 ++ record_wav audioFile e ++ [EvDelay 1000])
    else (st1, tr2).

(** Running [loop] over a sequence of oracle answers. *)
Fixpoint run (st : state) (es : list tick_env) : state * list event :=
  match es with
  | [] => (st, [])
  | e :: es' =>
      let '(st1, tr1) := loop st e in
      let '(st2, tr2) := run st1 es' in
      (st2, tr1 ++ tr2)
  end.

(** The whole sketch: [setup], then [loop] forever unless [setup] spins. *)
Definition sketch (b : boot_env) (es : list tick_env) : option (state * list event) :=
  match setup b with
  | Halted => None
  | Running st => Some (run st es)
  end.

(** States the sketch can be in when [loop] is entered. *)
Inductive reachable : state -> Prop :=
  | reach_setup b st : setup b = Running st -> reachable st
  | reach_loop st e : reachable st -> reachable (fst (loop st e)).

(** ** Reading the buffers back *)

(** A sequence of 16-bit samples as the little-endian bytes the microphone
    delivers, and the sample a correct shift without clipping yields. *)
Definition enc16 (ss : list Z) : list Z :=
  flat_map (fun s => [u8 s; u8 (Z.shiftr s 8)]) ss.

Definition shifted (s : Z) : Z := (s * 2 ^ VOLUME_GAIN) mod 2 ^ 16.

Definition is_sample (s : Z) : Prop := 0 <= s < 2 ^ 16.

(** A pass of [loop] takes a photo when it calls the camera, and enters the
    recording when it calls [ps_malloc], which only [record_wav] does. *)
Definition photo_triggered (tr : list event) : bool := existsb is_capture tr.

Definition is_malloc (ev : event) : bool :=
  match ev with EvMalloc _ _ => true | _ => false end.

Definition recording_entered (tr : list event) : bool := existsb is_malloc tr.

(** The same answers with a silent microphone. *)
Definition silenced (e : tick_env) : tick_env :=
  {| clock_ms := clock_ms e; frame := frame e; img_open := img_open e;
     mic_poll := []; wav_open := wav_open e; heap_block := heap_block e;
     mic_bulk := mic_bulk e |}.

(** ** Sample inputs *)

Definition good_boot : boot_env :=
  {| i2s_begin := true; camera_init := true; sd_begin := true; card_present := true |}.

Definition camera_dead_boot : boot_env :=
  {| i2s_begin := true; camera_init := false; sd_begin := true; card_present := true |}.

(** The state [setup] leaves when it returns. *)
Definition booted : state :=
  {| camera_status := true; sd_status := true; fileCount := 1; lastPhotoTime := 0 |}.

Definition jpeg_stub : list Z := [0xFF; 0xD8; 0xFF; 0xD9].

(** A block of [record_size] bytes as [ps_malloc] hands it out. *)
Definition fresh_block : list Z := replicate (Z.to_nat record_size) 0.

(** Answers at time [t] with a working camera and card, a two-byte poll
    holding the sample [s], and [bulk] as what the microphone delivers to
    the blocking read. *)
Definition answers (t s : Z) (bulk : list Z) : tick_env :=
  {| clock_ms := t; frame := Some jpeg_stub; img_open := true;
     mic_poll := enc16 [u16 s]; wav_open := true;
     heap_block := Some fresh_block; mic_bulk := bulk |}.

Definition quiet_at (t : Z) : tick_env := answers t 0 [].
Definition loud_at (t : Z) : tick_env := answers t 6000 (enc16 [100; 32767; 32768; 0]).

(** Answers of a pass in which [ps_malloc] returns NULL. *)
Definition alloc_refused : tick_env :=
  {| clock_ms := 0; frame := Some jpeg_stub; img_open := true;
     mic_poll := enc16 [6000]; wav_open := true;
     heap_block := None; mic_bulk := [] |}.

(** Answers of a pass at 10 s with a camera that delivers no frame. *)
Definition dead_camera_pass : tick_env :=
  {| clock_ms := 10000; frame := None; img_open := true;
     mic_poll := enc16 [6000]; wav_open := true;
     heap_block := Some fresh_block; mic_bulk := enc16 [100; 200] |}.

(** ** File names *)

(** The paths a trace opens, in order: the names of the files emitted. *)
Definition opened (tr : list event) : list string :=
  omap (fun ev => match ev with EvOpen p _ => Some p | _ => None end) tr.

(** A capture is a photo ([true]) or a recording ([false]) together with
    the index printed into its name. *)
Definition file_name (k : bool * Z) : string :=
  if fst k then image_name (snd k) else audio_name (snd k).

(** A running sketch whose counter stands at [c] and whose photo timer was
    never updated. *)
Definition counting_state (c : Z) : state :=
  {| camera_status := true; sd_status := true; fileCount := c; lastPhotoTime := 0 |}.

(** The captures of a trace, photo or recording, made or failed: every call
    of [photo_save] asks the camera for a frame once and every call of
    [record_wav] asks the heap for a buffer once. *)
Definition attempts (tr : list event) : nat :=
  length (List.filter (fun ev => is_capture ev || is_malloc ev) tr).

(** What holds of the globals whenever [loop] is entered. *)
Record state_ok (st : state) : Prop := {
  ok_camera : camera_status st = true;
  ok_sd : sd_status st = true;
  ok_count : - 2 ^ 31 <= fileCount st < 2 ^ 31;
  ok_last : 0 <= lastPhotoTime st < 2 ^ 32
}.

(** ** Reference forms used by the further properties *)

(** An event that opens or writes a file names that file. *)
Definition touches (ev : event) : option string :=
  match ev with
  | EvOpen p _ => Some p
  | EvWrite p _ _ => Some p
  | _ => None
  end.

(** Counting the events of one kind in a trace. *)
Definition count_ev (f : event -> bool) (tr : list event) : nat :=
  length (List.filter f tr).

Definition is_fb_got (ev : event) : bool :=
  match ev with EvFbGet true => true | _ => false end.
Definition is_fb_return (ev : event) : bool :=
  match ev with EvFbReturn => true | _ => false end.
Definition is_malloc_ok (ev : event) : bool :=
  match ev with EvMalloc _ true => true | _ => false end.
Definition is_free (ev : event) : bool :=
  match ev with EvFree => true | _ => false end.
Definition is_poll (ev : event) : bool :=
  match ev with EvRead _ false _ => true | _ => false end.
Definition is_delay (ev : event) : bool :=
  match ev with EvDelay _ => true | _ => false end.

(** The gain step read two bytes at a time: each pair is replaced by the
    two bytes of the shifted 16-bit value; of a last single byte only the
    low byte of the shifted value can land in it. *)
Fixpoint gain_bytes (l : list Z) : list Z :=
  match l with
  | b0 :: b1 :: r =>
      u8 (u16 (Z.shiftl (b0 + 2 ^ 8 * b1) VOLUME_GAIN))
      :: u8 (Z.shiftr (u16 (Z.shiftl (b0 + 2 ^ 8 * b1) VOLUME_GAIN)) 8)
      :: gain_bytes r
  | [b0] => [u8 (Z.shiftl b0 VOLUME_GAIN)]
  | [] => []
  end.

(** The bytes [record_wav] hands to its second [file.write]: none when the
    allocation failed. *)
Definition payload_of (e : tick_env) : list Z :=
  match heap_block e with
  | None => []
  | Some block =>
      let got := i2s_read record_size (mic_bulk e) in
      take (length got) (apply_gain (length got) (got ++ drop (length got) block))
  end.

(** The names the sketch gives its files. *)
Definition is_capture_name (p : string) : Prop :=
  (exists n, p = image_name n) \/ (exists n, p = audio_name n).

(** Every file event of a trace goes to a name of that form. *)
Definition named (tr : list event) : Prop :=
  Forall (fun ev => forall p, touches ev = Some p -> is_capture_name p) tr.

(** A trace gives back what it took: every frame buffer obtained is
    returned and every buffer allocated is freed. *)
Definition balanced (tr : list event) : Prop :=
  count_ev is_fb_return tr = count_ev is_fb_got tr
  /\ count_ev is_free tr = count_ev is_malloc_ok tr.

(** * Properties *)

(** ** Little-endian fields *)

Lemma u8_range x : 0 <= u8 x < 256.
Proof. unfold u8. apply Z.mod_pos_bound. lia. Qed.

Lemma le32_bytes x : Forall is_byte (le32 x).
Proof. unfold le32. repeat constructor; apply u8_range. Qed.

Lemma le32_length x : length (le32 x) = 4%nat.
Proof. reflexivity. Qed.

Lemma rd32_le32 x rest : 0 <= x < 2 ^ 32 -> rd32 (le32 x ++ rest) = x.
Proof.
  intros Hx. unfold le32, rd32, u8. cbn [app].
  rewrite !Z.shiftr_div_pow2 by lia.
  change (2 ^ 8) with 256. change (2 ^ 16) with 65536.
  change (2 ^ 24) with 16777216. change (2 ^ 32) with 4294967296 in Hx.
  Z.div_mod_to_equations. lia.
Qed.

Lemma tag_length4 a b c d :
  length (tag (String a (String b (String c (String d EmptyString))))) = 4%nat.
Proof. reflexivity. Qed.

(** ** WAV header *)

Lemma header_length wav_size sample_rate :
  length (generate_wav_header wav_size sample_rate) = 44%nat.
Proof. reflexivity. Qed.

Example header_default :
  generate_wav_header 320000 16000 =
  [82; 73; 70; 70; 36; 226; 4; 0; 87; 65; 86; 69; 102; 109; 116; 32;
   16; 0; 0; 0; 1; 0; 1; 0; 128; 62; 0; 0; 0; 125; 0; 0; 2; 0; 16; 0;
   100; 97; 116; 97; 0; 226; 4; 0].
Proof. vm_compute. reflexivity. Qed.

Lemma header_bytes wav_size sample_rate :
  Forall is_byte (generate_wav_header wav_size sample_rate).
Proof.
  unfold generate_wav_header.
  repeat (apply Forall_app; split); try apply le32_bytes;
    repeat constructor; vm_compute; intuition discriminate.
Qed.

Lemma header_file_size wav_size sample_rate :
  hdr_file_size (generate_wav_header wav_size sample_rate) = u32 (wav_size + 36).
Proof.
  unfold hdr_file_size, generate_wav_header.
  change (drop 4 (tag "RIFF" ++ ?l)) with l.
  rewrite rd32_le32 by (apply Z.mod_pos_bound; lia).
  unfold u32, WAV_HEADER_SIZE. rewrite Zminus_mod_idemp_l. f_equal. lia.
Qed.

Lemma header_data_size wav_size sample_rate :
  0 <= wav_size < 2 ^ 32 ->
  hdr_data_size (generate_wav_header wav_size sample_rate) = wav_size.
Proof.
  intros H. unfold hdr_data_size, generate_wav_header.
  match goal with
  | |- rd32 (drop 40 ?h) = _ => change (drop 40 h) with (le32 wav_size ++ [])
  end.
  now apply rd32_le32.
Qed.

Lemma header_sample_rate wav_size sample_rate :
  0 <= sample_rate < 2 ^ 32 ->
  hdr_sample_rate (generate_wav_header wav_size sample_rate) = sample_rate.
Proof.
  intros H. unfold hdr_sample_rate, generate_wav_header.
  match goal with
  | |- rd32 (drop 24 ?h) = _ =>
      change (drop 24 h) with (le32 sample_rate ++ drop 28 h)
  end.
  now apply rd32_le32.
Qed.

(** The byte-rate field never depends on the [sample_rate] argument. *)
Lemma header_byte_rate wav_size sample_rate :
  hdr_byte_rate (generate_wav_header wav_size sample_rate) = 32000.
Proof. reflexivity. Qed.

(** It agrees with rate times bit depth / 8 only at the [SAMPLE_RATE]
    setting. *)
Lemma header_byte_rate_agrees wav_size sample_rate :
  0 <= sample_rate < 2 ^ 32 ->
  let h := generate_wav_header wav_size sample_rate in
  hdr_byte_rate h = hdr_sample_rate h * hdr_bits h / 8 <-> sample_rate = SAMPLE_RATE.
Proof.
  intros H h. subst h. rewrite header_byte_rate, header_sample_rate by exact H.
  change (hdr_bits (generate_wav_header wav_size sample_rate)) with 16.
  unfold SAMPLE_RATE. split; intros E.
  - assert (sample_rate * 16 / 8 = sample_rate * 2) as E'
      by (replace (sample_rate * 16) with (sample_rate * 2 * 8) by lia;
          apply Z.div_mul; lia).
    lia.
  - now subst sample_rate.
Qed.

Lemma header_fixed_fields wav_size sample_rate :
  let h := generate_wav_header wav_size sample_rate in
  take 4 h = tag "RIFF" /\ take 8 (drop 8 h) = tag "WAVEfmt " /\
  hdr_fmt_size h = 16 /\ hdr_format h = 1 /\ hdr_channels h = 1 /\
  hdr_block_align h = 2 /\ hdr_bits h = SAMPLE_BITS /\
  take 4 (drop 36 h) = tag "data".
Proof. repeat split. Qed.

(** ** Gain *)

Section Gain.

Implicit Types (buf pre rest : list Z) (ss : list Z).

Lemma gain_at_length buf i : length (gain_at buf i) = length buf.
Proof. unfold gain_at. now rewrite !length_insert. Qed.

Lemma gain_loop_length fuel : forall i n buf,
  length (gain_loop fuel i n buf) = length buf.
Proof.
  induction fuel as [|fuel IH]; intros i n buf; cbn [gain_loop]; [done|].
  destruct (i <? n)%nat; [|done]. now rewrite IH, gain_at_length.
Qed.

Lemma gain_at_cons a buf i : gain_at (a :: buf) (S i) = a :: gain_at buf i.
Proof. reflexivity. Qed.

Lemma gain_at_middle pre b0 b1 rest :
  gain_at (pre ++ b0 :: b1 :: rest) (length pre) =
  pre ++ u8 (u16 (Z.shiftl (b0 + 2 ^ 8 * b1) VOLUME_GAIN))
      :: u8 (Z.shiftr (u16 (Z.shiftl (b0 + 2 ^ 8 * b1) VOLUME_GAIN)) 8)
      :: rest.
Proof.
  induction pre as [|a pre IH]; [reflexivity|].
  cbn [app length]. now rewrite gain_at_cons, IH.
Qed.

Lemma enc16_dec s : 0 <= s < 2 ^ 16 -> u8 s + 2 ^ 8 * u8 (Z.shiftr s 8) = s.
Proof.
  intros H. unfold u8. rewrite Z.shiftr_div_pow2 by lia.
  change (2 ^ 8) with 256. change (2 ^ 16) with 65536 in H.
  Z.div_mod_to_equations. lia.
Qed.

Lemma enc16_length ss : length (enc16 ss) = (2 * length ss)%nat.
Proof.
  induction ss as [|s ss IH]; [done|].
  unfold enc16 in *. cbn [flat_map app length]. lia.
Qed.

Lemma shifted_shiftl s : u16 (Z.shiftl s VOLUME_GAIN) = shifted s.
Proof. unfold u16, shifted. now rewrite Z.shiftl_mul_pow2 by (unfold VOLUME_GAIN; lia). Qed.

Lemma shifted_sample s : is_sample (shifted s).
Proof. unfold is_sample, shifted. apply Z.mod_pos_bound. lia. Qed.

Lemma gain_loop_samples ss : forall fuel pre rest,
  (length ss <= fuel)%nat ->
  Forall is_sample ss ->
  gain_loop fuel (length pre) (length pre + length (enc16 ss)) (pre ++ enc16 ss ++ rest) =
  pre ++ enc16 (map shifted ss) ++ rest.
Proof.
  induction ss as [|s ss IH]; intros fuel pre rest Hfuel Hss.
  - cbn [enc16 flat_map length app map]. rewrite Nat.add_0_r.
    destruct fuel; cbn [gain_loop]; [done|].
    now rewrite Nat.ltb_irrefl.
  - destruct fuel as [|fuel]; [cbn in Hfuel; lia|].
    apply Forall_cons in Hss as [Hs Hss].
    cbn [gain_loop]. rewrite enc16_length. cbn [length].
    destruct (Nat.ltb_spec (length pre) (length pre + 2 * S (length ss))); [|lia].
    cbn [enc16 flat_map map app]. fold (enc16 ss). fold (enc16 (map shifted ss)).
    rewrite gain_at_middle, enc16_dec, shifted_shiftl by exact Hs.
    specialize (IH fuel (pre ++ [u8 (shifted s); u8 (Z.shiftr (shifted s) 8)]) rest).
    rewrite length_app, enc16_length in IH. cbn [length] in IH.
    replace (length pre + 2 + 2 * length ss)%nat
      with (length pre + 2 * S (length ss))%nat in IH by lia.
    rewrite <- !app_assoc in IH. cbn [app] in IH.
    apply IH; [cbn in Hfuel; lia | exact Hss].
Qed.

Lemma apply_gain_samples ss rest :
  Forall is_sample ss ->
  apply_gain (length (enc16 ss)) (enc16 ss ++ rest) = enc16 (map shifted ss) ++ rest.
Proof.
  intros Hss. unfold apply_gain.
  apply (gain_loop_samples ss (length (enc16 ss)) [] rest); [|exact Hss].
  rewrite enc16_length. lia.
Qed.

End Gain.

(** ** The loop *)

Lemma u32_range x : 0 <= u32 x < 2 ^ 32.
Proof. unfold u32. apply Z.mod_pos_bound. lia. Qed.

Lemma s32_range x : - 2 ^ 31 <= s32 x < 2 ^ 31.
Proof.
  unfold s32. pose proof (u32_range x).
  destruct (Z.ltb_spec (u32 x) (2 ^ 31)); lia.
Qed.

Lemma s32_small x : - 2 ^ 31 <= x < 2 ^ 31 -> s32 x = x.
Proof.
  intros H. unfold s32, u32.
  destruct (Z.ltb_spec (x mod 2 ^ 32) (2 ^ 31)) as [Hlt|Hge];
    change (2 ^ 31) with 2147483648 in *; change (2 ^ 32) with 4294967296 in *;
    Z.div_mod_to_equations; lia.
Qed.

Lemma setup_running b st :
  setup b = Running st ->
  st = {| camera_status := true; sd_status := true; fileCount := 1; lastPhotoTime := 0 |}.
Proof.
  unfold setup.
  destruct (i2s_begin b), (sd_begin b), (card_present b); cbn; congruence.
Qed.

Lemma loop_state_ok st e : state_ok st -> state_ok (fst (loop st e)).
Proof.
  intros [Hc Hs Hn Hl]. unfold loop. rewrite Hc, Hs. cbn [andb negb].
  destruct (photo_due st e), (sound_detected e); cbn [fst];
    constructor; cbn; unfold millis; auto using s32_range, u32_range.
Qed.

Lemma reachable_ok st : reachable st -> state_ok st.
Proof.
  induction 1 as [b st Hb | st e _ IH].
  - apply setup_running in Hb as ->. constructor; cbn; lia.
  - now apply loop_state_ok.
Qed.

Lemma photo_save_captures p e : photo_triggered (photo_save p e) = true.
Proof. unfold photo_save. now destruct (frame e). Qed.

Lemma record_wav_no_capture p e : photo_triggered (record_wav p e) = false.
Proof. unfold record_wav. now destruct (heap_block e). Qed.

Lemma photo_save_no_malloc p e : recording_entered (photo_save p e) = false.
Proof. unfold photo_save, writeFile. now destruct (frame e), (img_open e). Qed.

Lemma record_wav_mallocs p e : recording_entered (record_wav p e) = true.
Proof. unfold record_wav. now destruct (heap_block e). Qed.

Lemma loop_photo_triggered st e :
  state_ok st -> photo_triggered (snd (loop st e)) = photo_due st e.
Proof.
  intros [Hc Hs _ _]. unfold loop. rewrite Hc, Hs. cbn [andb negb].
  unfold photo_triggered.
  destruct (photo_due st e), (sound_detected e); cbn [snd];
    rewrite ?existsb_app; fold (photo_triggered (photo_save (image_name (fileCount st)) e));
    rewrite ?photo_save_captures; try reflexivity.
  all: match goal with
       | |- context [existsb is_capture (record_wav ?p ?x)] =>
           fold (photo_triggered (record_wav p x)); now rewrite record_wav_no_capture
       end.
Qed.

Lemma loop_recording_entered st e :
  state_ok st -> recording_entered (snd (loop st e)) = sound_detected e.
Proof.
  intros [Hc Hs _ _]. unfold loop. rewrite Hc, Hs. cbn [andb negb].
  unfold recording_entered.
  destruct (photo_due st e), (sound_detected e); cbn [snd];
    rewrite ?existsb_app;
    try (fold (recording_entered (photo_save (image_name (fileCount st)) e));
         rewrite photo_save_no_malloc);
    try match goal with
        | |- context [existsb is_malloc (record_wav ?p ?x)] =>
            fold (recording_entered (record_wav p x)); rewrite record_wav_mallocs
        end;
    cbn; rewrite ?orb_true_r; reflexivity.
Qed.

Lemma loop_lastPhotoTime st e :
  state_ok st ->
  lastPhotoTime (fst (loop st e)) =
  if photo_due st e then millis e else lastPhotoTime st.
Proof.
  intros [Hc Hs _ _]. unfold loop. rewrite Hc, Hs. cbn [andb negb].
  now destruct (photo_due st e), (sound_detected e).
Qed.

Lemma sub32_same x : sub32 x x = 0.
Proof. unfold sub32, u32. now rewrite Z.sub_diag. Qed.

Lemma sub32_no_wrap a b : 0 <= b <= a -> a < 2 ^ 32 -> sub32 a b = a - b.
Proof. intros H1 H2. unfold sub32, u32. apply Z.mod_small. lia. Qed.

(** The clock and the stored timestamp are both readings modulo 2^32 of
    the time since boot; their modular difference is the elapsed time as
    long as that is below 2^32 ms. *)
Lemma sub32_elapsed t_now t_last :
  t_last <= t_now < t_last + 2 ^ 32 ->
  sub32 (u32 t_now) (u32 t_last) = t_now - t_last.
Proof.
  intros H. unfold sub32, u32. rewrite <- Zminus_mod.
  change (2 ^ 32) with 4294967296 in *. Z.div_mod_to_equations. lia.
Qed.

Lemma polled_sample_enc16 s more :
  - 2 ^ 15 <= s < 2 ^ 15 ->
  polled_sample (i2s_read 2 (enc16 [u16 s] ++ more)) = s.
Proof.
  intros H.
  change (s16 (u8 (u16 s) + 2 ^ 8 * u8 (Z.shiftr (u16 s) 8)) = s).
  rewrite enc16_dec by (unfold u16; apply Z.mod_pos_bound; lia).
  unfold s16, u16. rewrite Z.mod_mod by lia.
  destruct (Z.ltb_spec (s mod 2 ^ 16) (2 ^ 15));
    change (2 ^ 15) with 32768 in *; change (2 ^ 16) with 65536 in *;
    Z.div_mod_to_equations; lia.
Qed.

(** C5. Timer gating: in every pass of [loop] the sketch can make, a photo
    capture is triggered exactly when [now - lastPhotoTime] (the
    [unsigned long] difference, which is the plain difference when the clock
    has not wrapped below the timestamp) is at least [PHOTO_INTERVAL]; on a
    trigger [lastPhotoTime] becomes [now] whatever the camera returned, and
    a further pass that reads the same [now] takes no photo. *)
Theorem C5_timer_gating (st : state) (e : tick_env) :
  reachable st ->
  let now := millis e in
  let st' := fst (loop st e) in
  (photo_triggered (snd (loop st e)) = true <->
     PHOTO_INTERVAL <= sub32 now (lastPhotoTime st))
  /\ (lastPhotoTime st <= now -> sub32 now (lastPhotoTime st) = now - lastPhotoTime st)
  /\ (PHOTO_INTERVAL <= sub32 now (lastPhotoTime st) ->
        lastPhotoTime st' = now
        /\ forall e', millis e' = now -> photo_triggered (snd (loop st' e')) = false)
  /\ (sub32 now (lastPhotoTime st) < PHOTO_INTERVAL -> lastPhotoTime st' = lastPhotoTime st).
Proof.
  intros Hr now st'. pose proof (reachable_ok st Hr) as Hok.
  assert (Hdue : photo_due st e = true <-> PHOTO_INTERVAL <= sub32 now (lastPhotoTime st))
    by (unfold photo_due; apply Z.leb_le).
  repeat split.
  - rewrite loop_photo_triggered by exact Hok. apply Hdue.
  - rewrite loop_photo_triggered by exact Hok. apply Hdue.
  - intros Hle. apply sub32_no_wrap.
    + destruct Hok as [_ _ _ Hl]. lia.
    + apply u32_range.
  - subst st'. rewrite loop_lastPhotoTime by exact Hok.
    apply Hdue in H. now rewrite H.
  - intros e' He'.
    assert (Hok' : state_ok st') by now apply loop_state_ok.
    rewrite loop_photo_triggered by exact Hok'.
    unfold photo_due. rewrite He'.
    subst st'. rewrite loop_lastPhotoTime by exact Hok.
    apply Hdue in H. rewrite H, sub32_same. reflexivity.
  - intros Hlt. subst st'. rewrite loop_lastPhotoTime by exact Hok.
    unfold photo_due. fold now.
    destruct (Z.leb_spec PHOTO_INTERVAL (sub32 now (lastPhotoTime st))); [lia|reflexivity].
Qed.

(** C6. Threshold gating: in every pass of [loop] the sketch can make, the
    recording is entered exactly when the zero-timeout read delivered at
    least one byte and the magnitude of the sample is strictly above
    [SOUND_THRESHOLD]; a magnitude equal to the threshold does not trigger.
    For a full two-byte sample [s] this is [|s| > SOUND_THRESHOLD]. *)
Theorem C6_threshold_gating (st : state) (e : tick_env) :
  reachable st ->
  let got := i2s_read 2 (mic_poll e) in
  let entered := recording_entered (snd (loop st e)) in
  (entered = true <->
     (0 < length got)%nat /\ SOUND_THRESHOLD < Z.abs (polled_sample got))
  /\ (Z.abs (polled_sample got) = SOUND_THRESHOLD -> entered = false)
  /\ (forall s more, - 2 ^ 15 <= s < 2 ^ 15 -> mic_poll e = enc16 [u16 s] ++ more ->
        (entered = true <-> SOUND_THRESHOLD < Z.abs s)).
Proof.
  intros Hr got entered. pose proof (reachable_ok st Hr) as Hok.
  assert (Hiff : entered = true <->
            (0 < length got)%nat /\ SOUND_THRESHOLD < Z.abs (polled_sample got)).
  { subst entered. rewrite loop_recording_entered by exact Hok.
    unfold sound_detected. fold got.
    rewrite andb_true_iff, !Z.ltb_lt. split; intros [H1 H2]; split; lia. }
  split; [exact Hiff|]. split.
  - intros Heq. apply not_true_is_false. intros E.
    apply Hiff in E. lia.
  - intros s more Hs Hpoll. rewrite Hiff. subst got. rewrite Hpoll.
    rewrite polled_sample_enc16 by exact Hs.
    split; [tauto|]. intros H. split; [|exact H].
    change (0 < 2)%nat. lia.
Qed.

(** C10. The timer comparison is a 32-bit modular subtraction: whenever the
    difference of the two clock values modulo 2^32 is at least
    [PHOTO_INTERVAL] the photo fires, also when [now] is numerically below
    [lastPhotoTime]; and when the stored timestamp is the reading taken at
    time [t_last] and less than 2^32 ms have elapsed since, the photo fires
    exactly when the elapsed time is at least [PHOTO_INTERVAL], wherever
    the clock wrapped in between. *)
Theorem C10_modular_timer (st : state) (e : tick_env) :
  reachable st ->
  (PHOTO_INTERVAL <= (millis e - lastPhotoTime st) mod 2 ^ 32 ->
     photo_triggered (snd (loop st e)) = true)
  /\ (forall t_last,
        lastPhotoTime st = t_last mod 2 ^ 32 ->
        t_last <= clock_ms e < t_last + 2 ^ 32 ->
        (photo_triggered (snd (loop st e)) = true <->
           PHOTO_INTERVAL <= clock_ms e - t_last)).
Proof.
  intros Hr. pose proof (reachable_ok st Hr) as Hok.
  rewrite loop_photo_triggered by exact Hok. unfold photo_due.
  split.
  - intros H. apply Z.leb_le. exact H.
  - intros t_last Hlast Hel. rewrite Z.leb_le, Hlast.
    unfold millis. fold (u32 t_last). now rewrite sub32_elapsed.
Qed.

Lemma reachable_booted : reachable booted.
Proof. apply (reach_setup good_boot). reflexivity. Qed.

Lemma loop_silenced_lastPhotoTime st e :
  lastPhotoTime (fst (loop st (silenced e))) = lastPhotoTime (fst (loop st e)).
Proof.
  unfold loop. destruct (negb (camera_status st && sd_status st)); [reflexivity|].
  change (photo_due st (silenced e)) with (photo_due st e).
  change (millis (silenced e)) with (millis e).
  change (sound_detected (silenced e)) with false.
  now destruct (photo_due st e), (sound_detected e).
Qed.

(** C9. A recording leaves [lastPhotoTime] as the timer check of the same
    pass left it (the pass ends with the timestamp it would have had with a
    silent microphone), so a photo that becomes due at a time [t_due] while
    the recording runs is taken by the first pass after it: with the
    timestamp taken at time [t_last], [t_due >= t_last + PHOTO_INTERVAL] and
    the next pass reading the clock at or after [t_due], less than 2^32 ms
    after [t_last], that pass calls the camera. *)
Theorem C9_recording_delays_photo (st : state) (e1 e2 : tick_env) (t_last t_due : Z) :
  reachable st ->
  sound_detected e1 = true ->
  lastPhotoTime (fst (loop st e1)) = u32 t_last ->
  t_last + PHOTO_INTERVAL <= t_due ->
  clock_ms e1 <= t_due <= clock_ms e2 ->
  clock_ms e2 < t_last + 2 ^ 32 ->
  recording_entered (snd (loop st e1)) = true
  /\ lastPhotoTime (fst (loop st e1)) = lastPhotoTime (fst (loop st (silenced e1)))
  /\ lastPhotoTime (fst (loop st e1)) =
       (if photo_due st e1 then millis e1 else lastPhotoTime st)
  /\ photo_triggered (snd (loop (fst (loop st e1)) e2)) = true.
Proof.
  intros Hr Hsound Hlast Hdue Hwin Hlap.
  pose proof (reachable_ok st Hr) as Hok.
  pose proof (loop_state_ok st e1 Hok) as Hok1.
  repeat split.
  - now rewrite loop_recording_entered.
  - now rewrite loop_silenced_lastPhotoTime.
  - now apply loop_lastPhotoTime.
  - rewrite loop_photo_triggered by exact Hok1.
    unfold photo_due, millis. rewrite Hlast.
    rewrite sub32_elapsed by (unfold PHOTO_INTERVAL in *; lia).
    apply Z.leb_le. lia.
Qed.

Lemma C9_recording_delays_photo_witness :
  recording_entered (snd (loop booted (loud_at 5000))) = true
  /\ lastPhotoTime (fst (loop booted (loud_at 5000))) =
       lastPhotoTime (fst (loop booted (silenced (loud_at 5000))))
  /\ lastPhotoTime (fst (loop booted (loud_at 5000))) =
       (if photo_due booted (loud_at 5000) then millis (loud_at 5000)
        else lastPhotoTime booted)
  /\ photo_triggered (snd (loop (fst (loop booted (loud_at 5000))) (quiet_at 16000))) = true.
Proof.
  apply (C9_recording_delays_photo booted (loud_at 5000) (quiet_at 16000) 0 10000).
  - apply (reach_setup good_boot). reflexivity.
  - vm_compute. reflexivity.
  - vm_compute. reflexivity.
  - vm_compute. discriminate.
  - vm_compute. split; discriminate.
  - vm_compute. reflexivity.
Defined.

Lemma C5_timer_gating_witness :
  reachable booted
  /\ photo_triggered (snd (loop booted (quiet_at 10000))) = true
  /\ photo_triggered
       (snd (loop (fst (loop booted (quiet_at 10000))) (quiet_at 10000))) = false.
Proof.
  assert (Hr : reachable booted) by (apply (reach_setup good_boot); reflexivity).
  destruct (C5_timer_gating booted (quiet_at 10000) Hr) as (Hiff & _ & Hset & _).
  split; [exact Hr|]. split.
  - apply Hiff. vm_compute. discriminate.
  - apply Hset; [vm_compute; discriminate | reflexivity].
Defined.

Lemma C6_threshold_gating_witness :
  reachable booted
  /\ recording_entered (snd (loop booted (answers 0 (-5001) []))) = true
  /\ recording_entered (snd (loop booted (answers 0 5000 []))) = false.
Proof.
  assert (Hr : reachable booted) by (apply (reach_setup good_boot); reflexivity).
  split; [exact Hr|]. split.
  - destruct (C6_threshold_gating booted (answers 0 (-5001) []) Hr) as (_ & _ & Hs).
    apply (Hs (-5001) []); [lia | reflexivity | vm_compute; reflexivity].
  - destruct (C6_threshold_gating booted (answers 0 5000 []) Hr) as (_ & Heq & _).
    apply Heq. vm_compute. reflexivity.
Defined.

Lemma C10_modular_timer_witness :
  let st := fst (loop booted (quiet_at 4294967000)) in
  let e := quiet_at (2 ^ 32 + 20000) in
  reachable st
  /\ millis e < lastPhotoTime st
  /\ photo_triggered (snd (loop st e)) = true.
Proof.
  intros st e.
  assert (Hr : reachable st).
  { apply reach_loop. apply (reach_setup good_boot). reflexivity. }
  split; [exact Hr|]. split; [vm_compute; reflexivity|].
  destruct (C10_modular_timer st e Hr) as [Hmod _].
  apply Hmod. vm_compute. discriminate.
Defined.

(** ** The recording *)

Lemma record_wav_allocated p e block :
  heap_block e = Some block ->
  record_wav p e =
  let got := i2s_read record_size (mic_bulk e) in
  [EvOpen p (wav_open e);
   EvWrite p (wav_open e) (generate_wav_header record_size SAMPLE_RATE);
   EvMalloc record_size true;
   EvRead record_size true got;
   EvWrite p (wav_open e)
     (take (length got) (apply_gain (length got) (got ++ drop (length got) block)));
   EvClose p;
   EvFree].
Proof. intros H. unfold record_wav. now rewrite H. Qed.

Lemma record_wav_refused p e :
  heap_block e = None ->
  record_wav p e =
  [EvOpen p (wav_open e);
   EvWrite p (wav_open e) (generate_wav_header record_size SAMPLE_RATE);
   EvMalloc record_size false].
Proof. intros H. unfold record_wav. now rewrite H. Qed.

Lemma map_shifted_replicate k s : map shifted (replicate k s) = replicate k (shifted s).
Proof. induction k as [|k IH]; [reflexivity|]. cbn [replicate map]. now rewrite IH. Qed.

Lemma writes_to_record_wav p e block :
  heap_block e = Some block ->
  writes_to p (record_wav p e) =
  let got := i2s_read record_size (mic_bulk e) in
  [generate_wav_header record_size SAMPLE_RATE;
   take (length got) (apply_gain (length got) (got ++ drop (length got) block))].
Proof.
  intros H. rewrite (record_wav_allocated p e block H).
  unfold writes_to.
  cbn -[generate_wav_header apply_gain take drop record_size i2s_read].
  destruct (decide (p = p)); [reflexivity | contradiction].
Qed.

Lemma map_shifted_length ss : length (enc16 (map shifted ss)) = length (enc16 ss).
Proof. now rewrite !enc16_length, length_map. Qed.

(** C8. The gain step replaces every 16-bit little-endian sample [s] of the
    recorded bytes by [s * 2^VOLUME_GAIN mod 2^16] and touches nothing
    behind them, and these are the bytes [record_wav] writes after the
    header: samples that are all zero stay all zero, and samples of maximal
    magnitude, 0x7FFF and 0x8000, come out as the wrapped patterns 0xFFF8
    and 0x0000, not as a clamped value. *)
Theorem C8_gain_shift_wraps (ss rest : list Z) (k : nat) :
  Forall is_sample ss ->
  apply_gain (length (enc16 ss)) (enc16 ss ++ rest) = enc16 (map shifted ss) ++ rest
  /\ (forall p e block,
        heap_block e = Some block ->
        i2s_read record_size (mic_bulk e) = enc16 ss ->
        writes_to p (record_wav p e) =
        [generate_wav_header record_size SAMPLE_RATE; enc16 (map shifted ss)])
  /\ apply_gain (length (enc16 (replicate k 0))) (enc16 (replicate k 0) ++ rest) =
       enc16 (replicate k 0) ++ rest
  /\ apply_gain (length (enc16 (replicate k 0x7FFF))) (enc16 (replicate k 0x7FFF) ++ rest) =
       enc16 (replicate k 0xFFF8) ++ rest
  /\ apply_gain (length (enc16 (replicate k 0x8000))) (enc16 (replicate k 0x8000) ++ rest) =
       enc16 (replicate k 0) ++ rest.
Proof.
  intros Hss. split; [now apply apply_gain_samples|]. split.
  { intros p e block Hblock Hgot.
    rewrite (writes_to_record_wav p e block Hblock). cbn zeta. rewrite Hgot.
    rewrite apply_gain_samples by exact Hss.
    now rewrite <- map_shifted_length, take_app_length. }
  repeat split.
  all: rewrite apply_gain_samples, map_shifted_replicate;
    [reflexivity | apply Forall_replicate; unfold is_sample; lia].
Qed.

Lemma C8_gain_shift_wraps_witness :
  Forall is_sample [100; 0x7FFF; 0x8000; 0]
  /\ apply_gain 8 ([100; 0; 0xFF; 0x7F; 0; 0x80; 0; 0] ++ [7; 7]) =
       [0x20; 0x03; 0xF8; 0xFF; 0; 0; 0; 0] ++ [7; 7].
Proof.
  assert (H : Forall is_sample [100; 0x7FFF; 0x8000; 0])
    by (repeat constructor; unfold is_sample; lia).
  split; [exact H|].
  exact (proj1 (C8_gain_shift_wraps [100; 0x7FFF; 0x8000; 0] [7; 7] 0 H)).
Defined.

Lemma sd_after_record_wav p e block sd :
  heap_block e = Some block ->
  wav_open e = true ->
  sd_after sd (record_wav p e) !! p =
  let got := i2s_read record_size (mic_bulk e) in
  Some (generate_wav_header record_size SAMPLE_RATE ++
        take (length got) (apply_gain (length got) (got ++ drop (length got) block))).
Proof.
  intros Hb Ho. rewrite (record_wav_allocated p e block Hb), Ho.
  unfold sd_after. cbn [foldl sd_step].
  rewrite lookup_insert_eq. cbn [default app].
  rewrite lookup_insert_eq. cbn [default].
  now rewrite lookup_insert_eq.
Qed.

(** C2, as the sketch has it. When the allocation succeeds, and in
    particular when the blocking read delivers fewer bytes than asked for,
    the audio file receives two [file.write] calls, the 44-byte header and
    then the payload; the payload is as long as the number of bytes read
    and is those bytes after the gain step; on a card that opened the file
    the content is the header followed by the payload; and when the read
    delivers all [record_size] bytes the data-size and file-size fields of
    the header agree with the payload. *)
Theorem C2_header_then_payload (p : string) (e : tick_env) (block : list Z) :
  heap_block e = Some block ->
  let got := i2s_read record_size (mic_bulk e) in
  let header := generate_wav_header record_size SAMPLE_RATE in
  exists payload,
    writes_to p (record_wav p e) = [header; payload]
    /\ length header = 44%nat
    /\ length payload = length got
    /\ Z.of_nat (length got) <= record_size
    /\ (forall ss, Forall is_sample ss -> got = enc16 ss ->
          payload = enc16 (map shifted ss))
    /\ (wav_open e = true ->
          forall sd, sd_after sd (record_wav p e) !! p = Some (header ++ payload))
    /\ (Z.of_nat (length got) = record_size ->
          hdr_data_size header = Z.of_nat (length payload)
          /\ hdr_file_size header = Z.of_nat (length payload) + 36).
Proof.
  intros Hb got header.
  exists (take (length got) (apply_gain (length got) (got ++ drop (length got) block))).
  assert (Hlen : length (take (length got)
                   (apply_gain (length got) (got ++ drop (length got) block))) = length got).
  { rewrite length_take. unfold apply_gain.
    rewrite gain_loop_length, length_app. lia. }
  split; [apply (writes_to_record_wav p e block Hb)|].
  split; [reflexivity|]. split; [exact Hlen|]. split.
  { subst got. unfold i2s_read. rewrite length_take.
    assert (0 <= record_size) by (vm_compute; discriminate). lia. }
  split.
  { intros ss Hss Hgot. rewrite Hgot, apply_gain_samples by exact Hss.
    now rewrite <- map_shifted_length, take_app_length. }
  split.
  { intros Ho sd. now rewrite (sd_after_record_wav p e block sd Hb Ho). }
  intros Hfull. rewrite Hlen, Hfull. split; vm_compute; reflexivity.
Qed.

Lemma C2_header_then_payload_witness :
  length (writes_to "/audio1.wav" (record_wav "/audio1.wav" (loud_at 0))) = 2%nat.
Proof.
  destruct (C2_header_then_payload "/audio1.wav" (loud_at 0) fresh_block eq_refl)
    as (payload & Hw & _).
  rewrite Hw. reflexivity.
Defined.

(** C2 as stated fails: a read of 8 bytes where 320000 were asked for is
    followed by two writes, not one, and the header written first announces
    320000 bytes of data. *)
Lemma C2_one_write_counterexample :
  let e := loud_at 0 in
  let tr := record_wav "/audio1.wav" e in
  Z.of_nat (length (i2s_read record_size (mic_bulk e))) = 8
  /\ 8 < record_size
  /\ (exists header payload,
        writes_to "/audio1.wav" tr = [header; payload]
        /\ hdr_data_size header = 320000 /\ length payload = 8%nat)
  /\ ~ (exists d, writes_to "/audio1.wav" tr = [d]
                  /\ hdr_data_size d = 8 /\ hdr_file_size d = 8 + 36).
Proof.
  intros e tr.
  pose proof (writes_to_record_wav "/audio1.wav" e fresh_block eq_refl) as Hw.
  fold tr in Hw. cbn zeta in Hw.
  split; [vm_compute; reflexivity|]. split; [vm_compute; reflexivity|]. split.
  - eexists _, _. split; [exact Hw|]. split; vm_compute; reflexivity.
  - intros (d & Hd & _). rewrite Hw in Hd. discriminate.
Qed.

(** ** Setup *)

Lemma setup_ignores_camera b :
  setup b =
  setup {| i2s_begin := i2s_begin b; camera_init := true;
           sd_begin := sd_begin b; card_present := card_present b |}.
Proof. reflexivity. Qed.

(** The microphone and the card are checked: without them [setup] spins. *)
Lemma setup_halts b :
  i2s_begin b = false \/ sd_begin b = false \/ card_present b = false ->
  setup b = Halted.
Proof.
  unfold setup.
  destruct (i2s_begin b), (sd_begin b), (card_present b); cbn; intuition discriminate.
Qed.

(** C3, evaluated where [esp_camera_init] fails and everything else works:
    [setup] returns with [camera_status] set, and the first pass at 10 s
    calls the camera, writes an audio file and moves the counter on. *)
Theorem C3_camera_failure_not_fatal :
  camera_init camera_dead_boot = false
  /\ setup camera_dead_boot = Running booted
  /\ exists st tr,
       sketch camera_dead_boot [dead_camera_pass] = Some (st, tr)
       /\ photo_triggered tr = true
       /\ existsb is_write tr = true
       /\ sd_after ∅ tr !! "/audio2.wav" =
            Some (generate_wav_header 320000 16000 ++ [32; 3; 64; 6])
       /\ fileCount st = 3.
Proof.
  split; [reflexivity|]. split; [reflexivity|].
  eexists _, _. split; [reflexivity|].
  repeat split; vm_compute; reflexivity.
Qed.

(** C4, evaluated where [ps_malloc] returns NULL: the file has been opened
    and the header written before the allocation is tried, so the card
    keeps a 44-byte file announcing 320000 bytes of data; the pass itself
    ends normally with the counter moved on. *)
Theorem C4_refused_allocation_leaves_header :
  heap_block alloc_refused = None
  /\ snd (loop booted alloc_refused) =
       [EvRead 2 false [112; 23];
        EvOpen "/audio1.wav" true;
        EvWrite "/audio1.wav" true (generate_wav_header 320000 16000);
        EvMalloc 320000 false;
        EvDelay 1000]
  /\ sd_after ∅ (snd (loop booted alloc_refused)) !! "/audio1.wav" =
       Some (generate_wav_header 320000 16000)
  /\ hdr_data_size (generate_wav_header 320000 16000) = 320000
  /\ fileCount (fst (loop booted alloc_refused)) = 2.
Proof. repeat split; vm_compute; reflexivity. Qed.

(** C1, evaluated at a sample rate other than the [SAMPLE_RATE] setting:
    the header carries the rate it was given, 16 bits per sample, and a
    byte rate of 32000 where rate times bit depth / 8 is 16000. *)
Theorem C1_byte_rate_ignores_sample_rate :
  let h := generate_wav_header 160000 8000 in
  hdr_sample_rate h = 8000
  /\ hdr_bits h = 16
  /\ hdr_channels h = 1
  /\ hdr_data_size h = 160000
  /\ hdr_file_size h = 160000 + 36
  /\ hdr_byte_rate h = 32000
  /\ hdr_byte_rate h <> hdr_sample_rate h * hdr_bits h / 8.
Proof. repeat split; vm_compute; congruence. Qed.

(** ** The sequence counter *)

Lemma run_cons st e es :
  run st (e :: es) =
  (fst (run (fst (loop st e)) es), snd (loop st e) ++ snd (run (fst (loop st e)) es)).
Proof.
  cbn [run]. destruct (loop st e) as [st1 tr1].
  cbn [fst snd]. now destruct (run st1 es).
Qed.

Lemma run_reachable es : forall st, reachable st -> reachable (fst (run st es)).
Proof.
  induction es as [|e es IH]; intros st Hr; [exact Hr|].
  rewrite run_cons. cbn [fst]. apply IH. now apply reach_loop.
Qed.

Lemma opened_app tr1 tr2 : opened (tr1 ++ tr2) = opened tr1 ++ opened tr2.
Proof. unfold opened. apply omap_app. Qed.

Lemma opened_photo_save n e :
  opened (photo_save (image_name n) e) = [] \/
  opened (photo_save (image_name n) e) = [file_name (true, n)].
Proof.
  unfold photo_save, writeFile.
  destruct (frame e); [|now left]. right. now destruct (img_open e).
Qed.

Lemma opened_record_wav n e :
  opened (record_wav (audio_name n) e) = [file_name (false, n)].
Proof. unfold record_wav. now destruct (heap_block e). Qed.

Lemma attempts_app tr1 tr2 : attempts (tr1 ++ tr2) = (attempts tr1 + attempts tr2)%nat.
Proof. unfold attempts. now rewrite List.filter_app, length_app. Qed.

Lemma attempts_photo_save p e : attempts (photo_save p e) = 1%nat.
Proof. unfold photo_save, writeFile. now destruct (frame e), (img_open e). Qed.

Lemma attempts_record_wav p e : attempts (record_wav p e) = 1%nat.
Proof. unfold record_wav. now destruct (heap_block e). Qed.

Lemma loop_attempts st e :
  state_ok st ->
  Z.of_nat (attempts (snd (loop st e))) =
  (if photo_due st e then 1 else 0) + (if sound_detected e then 1 else 0).
Proof.
  intros [Hc Hs _ _]. unfold loop. rewrite Hc, Hs. cbn [andb negb].
  destruct (photo_due st e), (sound_detected e); cbn [snd];
    rewrite ?attempts_app, ?attempts_photo_save, ?attempts_record_wav; reflexivity.
Qed.

(** What one pass does to the counter and which files it opens. *)
Lemma loop_counter st e :
  state_ok st ->
  fileCount st + Z.of_nat (attempts (snd (loop st e))) < 2 ^ 31 ->
  fileCount (fst (loop st e)) = fileCount st + Z.of_nat (attempts (snd (loop st e)))
  /\ exists ks,
       opened (snd (loop st e)) = map file_name ks
       /\ StronglySorted Z.lt (map snd ks)
       /\ Forall (fun k => fileCount st <= snd k < fileCount (fst (loop st e))) ks.
Proof.
  intros Hok. rewrite (loop_attempts st e Hok).
  destruct Hok as [Hc Hs Hn _]. unfold loop. rewrite Hc, Hs. cbn [andb negb].
  destruct (photo_due st e), (sound_detected e); intros Hroom; cbn [fst snd fileCount];
    rewrite ?(s32_small (fileCount st + 1)) by lia; rewrite ?s32_small by lia;
    (split; [lia|]); rewrite ?opened_app, ?opened_record_wav.
  - destruct (opened_photo_save (fileCount st) e) as [-> | ->].
    + exists [(false, fileCount st + 1)]. cbn.
      repeat constructor; cbn; lia.
    + exists [(true, fileCount st); (false, fileCount st + 1)]. cbn.
      repeat constructor; cbn; lia.
  - destruct (opened_photo_save (fileCount st) e) as [-> | ->].
    + exists []. cbn. repeat constructor.
    + exists [(true, fileCount st)]. cbn. repeat constructor; cbn; lia.
  - exists [(false, fileCount st)]. cbn. repeat constructor; cbn; lia.
  - exists []. cbn. repeat constructor.
Qed.

Lemma run_counter es : forall st,
  state_ok st ->
  fileCount st + Z.of_nat (attempts (snd (run st es))) < 2 ^ 31 ->
  fileCount (fst (run st es)) = fileCount st + Z.of_nat (attempts (snd (run st es)))
  /\ exists ks,
       opened (snd (run st es)) = map file_name ks
       /\ StronglySorted Z.lt (map snd ks)
       /\ Forall (fun k => fileCount st <= snd k < fileCount (fst (run st es))) ks.
Proof.
  induction es as [|e es IH]; intros st Hok.
  - cbn [run fst snd]. intros _. split; [cbn; lia|].
    exists []. repeat constructor.
  - rewrite run_cons. cbn [fst snd]. rewrite attempts_app, Nat2Z.inj_add.
    intros Hroom.
    destruct (loop_counter st e Hok) as (Hc1 & ks1 & Ho1 & Hs1 & Hr1); [lia|].
    destruct (IH (fst (loop st e)) (loop_state_ok st e Hok))
      as (Hc2 & ks2 & Ho2 & Hs2 & Hr2); [lia|].
    split; [lia|]. exists (ks1 ++ ks2).
    rewrite opened_app, Ho1, Ho2, !map_app. split; [reflexivity|]. split.
    + apply StronglySorted_app_2; [|exact Hs1|exact Hs2].
      intros x1 x2 [k1 [-> H1]]%list_elem_of_fmap [k2 [-> H2]]%list_elem_of_fmap.
      rewrite Forall_forall in Hr1, Hr2.
      specialize (Hr1 k1 H1). specialize (Hr2 k2 H2). lia.
    + apply Forall_app. split.
      * eapply Forall_impl; [exact Hr1|]. cbn. intros k Hk. lia.
      * eapply Forall_impl; [exact Hr2|]. cbn. intros k Hk. lia.
Qed.

Lemma increasing_NoDup (l : list Z) : StronglySorted Z.lt l -> NoDup l.
Proof.
  induction 1 as [|x l _ IH Hx]; constructor; [|exact IH].
  intros Hin. rewrite Forall_forall in Hx. specialize (Hx x Hin). lia.
Qed.

Lemma loop_counting c :
  - 2 ^ 31 <= c -> c + 1 < 2 ^ 31 ->
  fst (loop (counting_state c) (loud_at 0)) = counting_state (c + 1).
Proof.
  intros Hlo Hhi. unfold loop. cbn [counting_state camera_status sd_status andb negb].
  change (photo_due (counting_state c) (loud_at 0)) with false.
  change (sound_detected (loud_at 0)) with true. cbn [fst fileCount lastPhotoTime].
  unfold counting_state. cbn [fileCount lastPhotoTime camera_status sd_status].
  now rewrite s32_small by lia.
Qed.

Lemma reachable_counting (k : nat) :
  Z.of_nat k + 1 < 2 ^ 31 -> reachable (counting_state (1 + Z.of_nat k)).
Proof.
  induction k as [|k IH]; intros Hk.
  - apply (reach_setup good_boot). reflexivity.
  - replace (1 + Z.of_nat (S k)) with (1 + Z.of_nat k + 1) by lia.
    rewrite <- loop_counting by lia. apply reach_loop, IH. lia.
Qed.

(** C7, within the range of [int]. The counter is 1 when [setup] returns.
    Over any further passes whose captures (photos and recordings, made or
    failed) fit below 2^31 when added to the counter, the counter grows by
    exactly the number of captures, so it is never reset or decremented,
    and the files opened carry, in order, strictly increasing indices
    without repeats, all between the counter before and the counter
    after. *)
Theorem C7_counter_increases_within_int (st : state) (es : list tick_env) :
  reachable st ->
  fileCount st + Z.of_nat (attempts (snd (run st es))) < 2 ^ 31 ->
  (forall b st0, setup b = Running st0 -> fileCount st0 = 1)
  /\ fileCount (fst (run st es)) = fileCount st + Z.of_nat (attempts (snd (run st es)))
  /\ fileCount st <= fileCount (fst (run st es))
  /\ exists ks,
       opened (snd (run st es)) = map file_name ks
       /\ StronglySorted Z.lt (map snd ks)
       /\ NoDup (map snd ks)
       /\ Forall (fun k => fileCount st <= snd k < fileCount (fst (run st es))) ks.
Proof.
  intros Hr Hroom. pose proof (reachable_ok st Hr) as Hok.
  destruct (run_counter es st Hok Hroom) as (Hc & ks & Ho & Hs & Hf).
  split. { intros b st0 Hb. now rewrite (setup_running b st0 Hb). }
  split; [exact Hc|]. split; [lia|].
  exists ks. auto using increasing_NoDup.
Qed.

Lemma C7_counter_increases_within_int_witness :
  let es := [quiet_at 10000; loud_at 12000] in
  reachable booted
  /\ fileCount booted + Z.of_nat (attempts (snd (run booted es))) < 2 ^ 31
  /\ opened (snd (run booted es)) = ["/image1.jpg"; "/audio2.wav"]
  /\ fileCount (fst (run booted es)) = 3.
Proof.
  intros es.
  assert (Hr : reachable booted) by (apply (reach_setup good_boot); reflexivity).
  assert (Hroom : fileCount booted + Z.of_nat (attempts (snd (run booted es))) < 2 ^ 31)
    by (vm_compute; reflexivity).
  destruct (C7_counter_increases_within_int booted es Hr Hroom) as (_ & Hc & _).
  split; [exact Hr|]. split; [exact Hroom|]. split; [vm_compute; reflexivity|].
  rewrite Hc. vm_compute. reflexivity.
Defined.

(** C7 as stated fails at the end of the [int] range: the state with the
    counter at 2147483647 is reached after 2147483646 recordings, and the
    next recording takes the counter to -2147483648 and is followed by a
    file with that index. *)
Lemma C7_counter_wraps_counterexample :
  reachable (counting_state 2147483647)
  /\ fileCount (fst (loop (counting_state 2147483647) (loud_at 0))) = -2147483648
  /\ fileCount (fst (loop (counting_state 2147483647) (loud_at 0)))
       < fileCount (counting_state 2147483647)
  /\ opened (snd (run (counting_state 2147483647) [loud_at 0; loud_at 0])) =
       ["/audio2147483647.wav"; "/audio-2147483648.wav"].
Proof.
  split.
  - replace 2147483647 with (1 + Z.of_nat (Z.to_nat 2147483646)) by lia.
    apply reachable_counting. lia.
  - repeat split; vm_compute; reflexivity.
Qed.

(** * Further properties of the sketch *)

(** ** The header encoder *)

(** X1. Whatever the arguments, [generate_wav_header] produces 44 values
    that are all bytes, with the RIFF, WAVE, fmt and data tags in place, a
    16-byte PCM format chunk, one channel, block align 2 and 16 bits per
    sample. *)
Theorem X1_header_well_formed (wav_size sample_rate : Z) :
  let h := generate_wav_header wav_size sample_rate in
  length h = 44%nat
  /\ Forall is_byte h
  /\ take 4 h = tag "RIFF" /\ take 8 (drop 8 h) = tag "WAVEfmt "
  /\ take 4 (drop 36 h) = tag "data"
  /\ hdr_fmt_size h = 16 /\ hdr_format h = 1 /\ hdr_channels h = 1
  /\ hdr_block_align h = hdr_channels h * hdr_bits h / 8
  /\ hdr_bits h = SAMPLE_BITS.
Proof.
  intros h. split; [reflexivity|]. split; [apply header_bytes|].
  repeat split.
Qed.

(** X2. Round trip of the two arguments: for 32-bit values the data-size
    and sample-rate fields, read back little-endian, are the arguments, and
    the rest of the header does not depend on the data size beyond its two
    size fields. *)
Theorem X2_header_round_trip (wav_size sample_rate : Z) :
  0 <= wav_size < 2 ^ 32 ->
  0 <= sample_rate < 2 ^ 32 ->
  let h := generate_wav_header wav_size sample_rate in
  hdr_data_size h = wav_size
  /\ hdr_sample_rate h = sample_rate
  /\ take 4 (drop 40 h) = le32 wav_size
  /\ take 4 (drop 24 h) = le32 sample_rate
  /\ take 32 (drop 8 h) = take 32 (drop 8 (generate_wav_header 0 sample_rate)).
Proof.
  intros Hw Hs h. split; [now apply header_data_size|].
  split; [now apply header_sample_rate|]. repeat split.
Qed.

Lemma X2_header_round_trip_witness :
  hdr_data_size (generate_wav_header 4294967295 44100) = 4294967295
  /\ hdr_sample_rate (generate_wav_header 4294967295 44100) = 44100.
Proof.
  destruct (X2_header_round_trip 4294967295 44100) as (Hd & Hs & _); [lia | lia |].
  split; [exact Hd | exact Hs].
Defined.

(** X3. The file-size field is the data size plus 36 as long as that fits
    in 32 bits; for the 36 largest data sizes it wraps and holds the sum
    less 2^32. *)
Theorem X3_header_file_size_wraps (wav_size sample_rate : Z) :
  0 <= wav_size < 2 ^ 32 ->
  hdr_file_size (generate_wav_header wav_size sample_rate) =
  if wav_size <? 2 ^ 32 - 36 then wav_size + 36 else wav_size + 36 - 2 ^ 32.
Proof.
  intros H. rewrite header_file_size. unfold u32.
  destruct (Z.ltb_spec wav_size (2 ^ 32 - 36));
    change (2 ^ 32) with 4294967296 in *; Z.div_mod_to_equations; lia.
Qed.

Lemma X3_header_file_size_wraps_witness :
  hdr_file_size (generate_wav_header 4294967295 16000) = 35
  /\ hdr_file_size (generate_wav_header 320000 16000) = 320036.
Proof.
  split.
  - apply (X3_header_file_size_wraps 4294967295 16000). lia.
  - apply (X3_header_file_size_wraps 320000 16000). lia.
Defined.

(** X4. The byte-rate field is always 32000; it equals sample rate times
    block align, as a WAV reader expects, exactly when the sample rate
    passed in is the [SAMPLE_RATE] setting. *)
Theorem X4_header_byte_rate_consistent (wav_size sample_rate : Z) :
  0 <= sample_rate < 2 ^ 32 ->
  let h := generate_wav_header wav_size sample_rate in
  hdr_byte_rate h = SAMPLE_RATE * SAMPLE_BITS / 8
  /\ (hdr_byte_rate h = hdr_sample_rate h * hdr_block_align h <->
      sample_rate = SAMPLE_RATE).
Proof.
  intros H h. split; [reflexivity|]. subst h.
  rewrite header_byte_rate, header_sample_rate by exact H.
  change (hdr_block_align (generate_wav_header wav_size sample_rate)) with 2.
  unfold SAMPLE_RATE. lia.
Qed.

Lemma X4_header_byte_rate_consistent_witness :
  hdr_byte_rate (generate_wav_header 320000 16000) =
  hdr_sample_rate (generate_wav_header 320000 16000) *
  hdr_block_align (generate_wav_header 320000 16000).
Proof.
  destruct (X4_header_byte_rate_consistent 320000 16000) as [_ Hiff]; [lia|].
  apply Hiff. reflexivity.
Defined.

(** ** Files on the card *)

Lemma sd_after_app sd tr1 tr2 : sd_after sd (tr1 ++ tr2) = sd_after (sd_after sd tr1) tr2.
Proof. unfold sd_after. apply foldl_app. Qed.

Lemma sd_after_writeFile sd p ok d :
  sd_after sd (writeFile p ok d) = if ok then <[p := d]> sd else sd.
Proof.
  destruct ok; [|reflexivity]. unfold writeFile, sd_after. cbn [foldl sd_step].
  rewrite lookup_insert_eq. cbn [default app]. apply insert_insert_eq.
Qed.

Lemma sd_after_photo_save sd p e :
  sd_after sd (photo_save p e) =
  match frame e with
  | Some buf => if img_open e then <[p := buf]> sd else sd
  | None => sd
  end.
Proof.
  unfold photo_save. destruct (frame e) as [buf|]; [|reflexivity].
  change (EvFbGet true :: writeFile p (img_open e) buf ++ [EvFbReturn])
    with ([EvFbGet true] ++ writeFile p (img_open e) buf ++ [EvFbReturn]).
  rewrite !sd_after_app, sd_after_writeFile. reflexivity.
Qed.

Lemma record_wav_events p e :
  record_wav p e =
  [EvOpen p (wav_open e);
   EvWrite p (wav_open e) (generate_wav_header record_size SAMPLE_RATE)] ++
  match heap_block e with
  | None => [EvMalloc record_size false]
  | Some _ =>
      [EvMalloc record_size true;
       EvRead record_size true (i2s_read record_size (mic_bulk e));
       EvWrite p (wav_open e) (payload_of e);
       EvClose p;
       EvFree]
  end.
Proof. unfold record_wav, payload_of. now destruct (heap_block e). Qed.

Lemma sd_after_record_wav_full sd p e :
  sd_after sd (record_wav p e) =
  if wav_open e
  then <[p := generate_wav_header record_size SAMPLE_RATE ++ payload_of e]> sd
  else sd.
Proof.
  rewrite record_wav_events. unfold payload_of.
  destruct (wav_open e), (heap_block e) as [block|];
    unfold sd_after; cbn [foldl sd_step app]; try reflexivity.
  - rewrite lookup_insert_eq. cbn [default app].
    rewrite insert_insert_eq, lookup_insert_eq. cbn [default].
    apply insert_insert_eq.
  - rewrite lookup_insert_eq. cbn [default app].
    rewrite insert_insert_eq. now rewrite app_nil_r.
Qed.

(** X5. [writeFile] with a failed open writes nothing and leaves the card
    as it was; with a successful open the file holds exactly the data,
    whatever it held before, so a second [writeFile] to the same path
    replaces the first. *)
Theorem X5_writeFile_replaces (p : string) (d1 d2 : list Z) (sd : gmap string (list Z)) :
  sd_after sd (writeFile p false d1) = sd
  /\ writes_to p (writeFile p false d1) = []
  /\ sd_after sd (writeFile p true d1) !! p = Some d1
  /\ sd_after sd (writeFile p true d1 ++ writeFile p true d2) = <[p := d2]> sd
  /\ sd_after sd (writeFile p true d1 ++ writeFile p false d2) = <[p := d1]> sd.
Proof.
  split; [reflexivity|]. split; [reflexivity|].
  rewrite !sd_after_app, !sd_after_writeFile.
  split; [apply lookup_insert_eq|]. split; [apply insert_insert_eq|reflexivity].
Qed.

(** X6. [photo_save] stores the frame, and only the frame, under the given
    name: without a frame or without the file nothing changes on the card,
    otherwise the file holds exactly the frame bytes. *)
Theorem X6_photo_save_stores_frame (p : string) (e : tick_env) (sd : gmap string (list Z)) :
  (frame e = None -> photo_save p e = [EvFbGet false] /\ sd_after sd (photo_save p e) = sd)
  /\ (img_open e = false -> sd_after sd (photo_save p e) = sd)
  /\ (forall buf, frame e = Some buf -> img_open e = true ->
        sd_after sd (photo_save p e) = <[p := buf]> sd
        /\ writes_to p (photo_save p e) = [buf]).
Proof.
  rewrite sd_after_photo_save. split; [|split].
  - intros H. unfold photo_save. now rewrite H.
  - intros H. rewrite H. now destruct (frame e).
  - intros buf Hf Ho. rewrite Hf, Ho. split; [reflexivity|].
    unfold photo_save, writeFile, writes_to. rewrite Hf, Ho. cbn.
    destruct (decide (p = p)); [reflexivity | contradiction].
Qed.

Lemma X6_photo_save_stores_frame_witness :
  sd_after ∅ (photo_save "/image1.jpg" (quiet_at 10000)) = {[ "/image1.jpg" := jpeg_stub ]}.
Proof.
  destruct (X6_photo_save_stores_frame "/image1.jpg" (quiet_at 10000) ∅) as (_ & _ & H).
  destruct (H jpeg_stub eq_refl eq_refl) as [Hsd _]. exact Hsd.
Defined.

(** X8. When the card refuses to open the audio file the recording still
    runs: the buffer is asked for and the blocking read is made, but the
    card is left exactly as it was. *)
Theorem X8_record_wav_unopened (p : string) (e : tick_env) (sd : gmap string (list Z)) :
  wav_open e = false ->
  sd_after sd (record_wav p e) = sd
  /\ recording_entered (record_wav p e) = true
  /\ (heap_block e <> None ->
      In (EvRead record_size true (i2s_read record_size (mic_bulk e))) (record_wav p e)).
Proof.
  intros Ho. rewrite sd_after_record_wav_full, Ho. split; [reflexivity|].
  split; [apply record_wav_mallocs|].
  intros Hb. rewrite record_wav_events.
  destruct (heap_block e); [|contradiction]. cbn. tauto.
Qed.

Lemma X8_record_wav_unopened_witness :
  let e := {| clock_ms := 0; frame := None; img_open := false;
              mic_poll := []; wav_open := false;
              heap_block := Some fresh_block; mic_bulk := [1; 2] |} in
  sd_after {[ "/image1.jpg" := jpeg_stub ]} (record_wav "/audio2.wav" e) =
  {[ "/image1.jpg" := jpeg_stub ]}.
Proof.
  intros e.
  exact (proj1 (X8_record_wav_unopened "/audio2.wav" e {[ "/image1.jpg" := jpeg_stub ]} eq_refl)).
Defined.

(** ** The gain step on arbitrary buffers *)

Lemma low_byte_of_shift b x :
  u8 (u16 (Z.shiftl (b + 2 ^ 8 * x) VOLUME_GAIN)) = u8 (Z.shiftl b VOLUME_GAIN).
Proof.
  unfold u8, u16, VOLUME_GAIN. rewrite !Z.shiftl_mul_pow2 by lia.
  change (2 ^ 8) with 256. change (2 ^ 16) with 65536. change (2 ^ 3) with 8.
  Z.div_mod_to_equations. lia.
Qed.

Lemma gain_at_last pre b0 :
  gain_at (pre ++ [b0]) (length pre) = pre ++ [u8 (Z.shiftl b0 VOLUME_GAIN)].
Proof.
  induction pre as [|a pre IH].
  - cbn [app length]. unfold gain_at.
    change ([b0] !!! 0%nat) with b0. change ([b0] !!! 1%nat) with 1.
    now rewrite low_byte_of_shift.
  - cbn [app length]. now rewrite gain_at_cons, IH.
Qed.

Lemma gain_bytes_length l : length (gain_bytes l) = length l.
Proof.
  induction l as [l IH] using (induction_ltof1 _ (@length Z)). unfold ltof in IH.
  destruct l as [|b0 [|b1 r]]; [reflexivity..|].
  cbn [gain_bytes length]. rewrite IH by (cbn; lia). reflexivity.
Qed.

(** The index loop over a buffer [pre ++ got ++ g], started behind [pre]
    and bounded by the end of [got], rewrites [got] into [gain_bytes got];
    what follows may change in its first byte only. *)
Lemma gain_loop_bytes got : forall fuel pre g,
  (length got <= fuel)%nat ->
  exists g', length g' = length g /\
    gain_loop fuel (length pre) (length pre + length got) (pre ++ got ++ g) =
    pre ++ gain_bytes got ++ g'.
Proof.
  induction got as [got IH] using (induction_ltof1 _ (@length Z)). unfold ltof in IH.
  intros fuel pre g Hfuel.
  destruct got as [|b0 [|b1 r]].
  - exists g. split; [reflexivity|]. cbn [length app gain_bytes]. rewrite Nat.add_0_r.
    destruct fuel; cbn [gain_loop]; [reflexivity|]. now rewrite Nat.ltb_irrefl.
  - destruct fuel as [|fuel]; [cbn in Hfuel; lia|].
    cbn [gain_loop length app gain_bytes].
    destruct (Nat.ltb_spec (length pre) (length pre + 1)); [|lia].
    assert (Hstop : forall buf,
      gain_loop fuel (length pre + 2) (length pre + 1) buf = buf).
    { intros buf. destruct fuel; cbn [gain_loop]; [reflexivity|].
      destruct (Nat.ltb_spec (length pre + 2) (length pre + 1)); [lia|reflexivity]. }
    rewrite Hstop. destruct g as [|g0 g].
    + exists []. split; [reflexivity|]. apply gain_at_last.
    + exists (u8 (Z.shiftr (u16 (Z.shiftl (b0 + 2 ^ 8 * g0) VOLUME_GAIN)) 8) :: g).
      split; [reflexivity|].
      rewrite gain_at_middle, low_byte_of_shift. reflexivity.
  - destruct fuel as [|fuel]; [cbn in Hfuel; lia|].
    cbn [gain_loop length app gain_bytes].
    destruct (Nat.ltb_spec (length pre) (length pre + S (S (length r)))); [|lia].
    rewrite gain_at_middle.
    set (lo := u8 (u16 (Z.shiftl (b0 + 2 ^ 8 * b1) VOLUME_GAIN))).
    set (hi := u8 (Z.shiftr (u16 (Z.shiftl (b0 + 2 ^ 8 * b1) VOLUME_GAIN)) 8)).
    destruct (IH r ltac:(cbn; lia) fuel (pre ++ [lo; hi]) g ltac:(cbn in Hfuel; lia))
      as (g' & Hg' & Hloop).
    exists g'. split; [exact Hg'|].
    rewrite length_app in Hloop. cbn [length] in Hloop.
    replace (length pre + 2 + length r)%nat
      with (length pre + S (S (length r)))%nat in Hloop by lia.
    rewrite <- !app_assoc in Hloop. cbn [app] in Hloop. exact Hloop.
Qed.

Lemma apply_gain_bytes got g :
  take (length got) (apply_gain (length got) (got ++ g)) = gain_bytes got.
Proof.
  unfold apply_gain.
  destruct (gain_loop_bytes got (length got) [] g (Nat.le_refl _)) as (g' & _ & H).
  cbn [app length Nat.add] in H. rewrite H.
  now rewrite <- (gain_bytes_length got), take_app_length.
Qed.

Lemma payload_of_bytes e :
  payload_of e =
  match heap_block e with
  | None => []
  | Some _ => gain_bytes (i2s_read record_size (mic_bulk e))
  end.
Proof. unfold payload_of. destruct (heap_block e); [apply apply_gain_bytes|reflexivity]. Qed.

(** X9. What [record_wav] writes after the header is a function of the
    bytes read alone, for every length of the read, odd lengths included:
    the contents of the block [ps_malloc] hands out never reach the file.
    Pairs of bytes carry the shifted 16-bit value, a last unpaired byte its
    own value shifted. *)
Theorem X9_payload_ignores_heap (p : string) (e : tick_env) (block : list Z) :
  heap_block e = Some block ->
  writes_to p (record_wav p e) =
  [generate_wav_header record_size SAMPLE_RATE;
   gain_bytes (i2s_read record_size (mic_bulk e))]
  /\ length (gain_bytes (i2s_read record_size (mic_bulk e))) =
     length (i2s_read record_size (mic_bulk e)).
Proof.
  intros Hb. split; [|apply gain_bytes_length].
  rewrite (writes_to_record_wav p e block Hb). cbn zeta.
  now rewrite apply_gain_bytes.
Qed.

Lemma X9_payload_ignores_heap_witness :
  let e := {| clock_ms := 0; frame := None; img_open := false;
              mic_poll := []; wav_open := true;
              heap_block := Some (replicate (Z.to_nat record_size) 255);
              mic_bulk := [1; 2; 255] |} in
  writes_to "/audio1.wav" (record_wav "/audio1.wav" e) =
  [generate_wav_header record_size SAMPLE_RATE; [8; 16; 248]].
Proof.
  intros e.
  exact (proj1 (X9_payload_ignores_heap "/audio1.wav" e _ eq_refl)).
Defined.

Lemma shifted_signed v :
  - 2 ^ 15 <= v < 2 ^ 15 ->
  (s16 (shifted (u16 v)) = 8 * v <-> - 4096 <= v < 4096)
  /\ shifted (u16 v) mod 8 = 0
  /\ shifted (u16 v) = shifted (v mod 2 ^ 13).
Proof.
  intros Hv. unfold s16, shifted, u16, VOLUME_GAIN.
  change (2 ^ 3) with 8. change (2 ^ 13) with 8192.
  change (2 ^ 15) with 32768 in *. change (2 ^ 16) with 65536.
  repeat split.
  - destruct (Z.ltb_spec ((v mod 65536 * 8) mod 65536 mod 65536) 32768);
      intros; Z.div_mod_to_equations; lia.
  - destruct (Z.ltb_spec ((v mod 65536 * 8) mod 65536 mod 65536) 32768);
      intros; Z.div_mod_to_equations; lia.
  - destruct (Z.ltb_spec ((v mod 65536 * 8) mod 65536 mod 65536) 32768);
      intros; Z.div_mod_to_equations; lia.
  - Z.div_mod_to_equations. lia.
  - Z.div_mod_to_equations. lia.
Qed.

Lemma gain_one_sample x :
  is_sample x -> rd16 (apply_gain 2 (enc16 [x])) = shifted x.
Proof.
  intros Hx. pose proof (apply_gain_samples [x] [] (Forall_cons_2 _ _ _ Hx (Forall_nil_2 _))) as H.
  rewrite !app_nil_r in H. change (length (enc16 [x])) with 2%nat in H.
  rewrite H. change (rd16 (enc16 (map shifted [x])))
    with (u8 (shifted x) + 2 ^ 8 * u8 (Z.shiftr (shifted x) 8)).
  apply enc16_dec, shifted_sample.
Qed.

(** X10. Take a signed 16-bit sample [v] as the two bytes the microphone
    delivers, run the gain loop over them and read the two bytes back. The
    value read is [v] times 8 exactly when [v] lies in [-4096, 4096);
    outside that range it has wrapped. It is always a multiple of 8 and
    depends on the low 13 bits of the sample only. *)
Theorem X10_gain_exact_range (v : Z) :
  - 2 ^ 15 <= v < 2 ^ 15 ->
  let out := rd16 (apply_gain 2 (enc16 [u16 v])) in
  (s16 out = 8 * v <-> - 4096 <= v < 4096)
  /\ out mod 8 = 0
  /\ out = rd16 (apply_gain 2 (enc16 [v mod 2 ^ 13])).
Proof.
  intros Hv out. subst out.
  assert (H16 : is_sample (u16 v)) by (unfold is_sample, u16; apply Z.mod_pos_bound; lia).
  assert (H13 : is_sample (v mod 2 ^ 13)).
  { unfold is_sample. pose proof (Z.mod_pos_bound v (2 ^ 13)). lia. }
  rewrite !gain_one_sample by assumption.
  destruct (shifted_signed v Hv) as (H1 & H2 & H3).
  split; [exact H1|]. split; [exact H2 | exact H3].
Qed.

Lemma X10_gain_exact_range_witness :
  s16 (rd16 (apply_gain 2 (enc16 [u16 (-4096)]))) = 8 * -4096
  /\ ~ s16 (rd16 (apply_gain 2 (enc16 [u16 4096]))) = 8 * 4096.
Proof.
  split.
  - apply (X10_gain_exact_range (-4096)); lia.
  - intros H. apply (X10_gain_exact_range 4096) in H; lia.
Defined.

Lemma payload_of_length e :
  Z.of_nat (length (payload_of e)) =
  match heap_block e with
  | None => 0
  | Some _ => Z.min record_size (Z.of_nat (length (mic_bulk e)))
  end.
Proof.
  rewrite payload_of_bytes. destruct (heap_block e); [|reflexivity].
  rewrite gain_bytes_length. unfold i2s_read. rewrite length_take.
  assert (0 <= record_size) by (vm_compute; discriminate). lia.
Qed.

(** X11. On a card that opens the file, [record_wav] leaves the header
    followed by the payload. The header always announces [record_size]
    bytes of data; the payload is never longer, and it is that long exactly
    when the buffer was allocated and the microphone delivered at least
    [record_size] bytes. *)
Theorem X11_wav_file_against_header (p : string) (e : tick_env) (sd : gmap string (list Z)) :
  wav_open e = true ->
  sd_after sd (record_wav p e) !! p =
    Some (generate_wav_header record_size SAMPLE_RATE ++ payload_of e)
  /\ hdr_data_size (generate_wav_header record_size SAMPLE_RATE) = record_size
  /\ Z.of_nat (length (payload_of e)) <= record_size
  /\ (Z.of_nat (length (payload_of e)) = record_size <->
      heap_block e <> None /\ record_size <= Z.of_nat (length (mic_bulk e))).
Proof.
  intros Ho. rewrite sd_after_record_wav_full, Ho, lookup_insert_eq.
  split; [reflexivity|]. split; [reflexivity|].
  rewrite payload_of_length.
  assert (0 < record_size) by (vm_compute; reflexivity).
  destruct (heap_block e); split; try lia.
  - split; [intros; split; [discriminate|lia] | intros [_ ?]; lia].
  - split; [lia | intros [? _]; contradiction].
Qed.

Lemma X11_wav_file_against_header_witness :
  sd_after ∅ (record_wav "/audio1.wav" (loud_at 0)) !! "/audio1.wav" =
  Some (generate_wav_header record_size SAMPLE_RATE ++ payload_of (loud_at 0)).
Proof.
  exact (proj1 (X11_wav_file_against_header "/audio1.wav" (loud_at 0) ∅ eq_refl)).
Defined.

(** ** Setup and the polling pass *)


Lemma byte_poll_sample b : is_byte b -> polled_sample [b] = b.
Proof.
  intros Hb. unfold polled_sample. cbn [lookup list_lookup default].
  change ([b] !! 0%nat) with (Some b). change ([b] !! 1%nat) with (@None Z).
  cbn [default]. unfold s16, u16, is_byte in *. cbv zeta.
  change (2 ^ 15) with 32768. change (2 ^ 16) with 65536. change (2 ^ 8) with 256.
  unfold id. rewrite Z.mul_0_r, Z.add_0_r, (Z.mod_small b 65536) by lia.
  destruct (Z.ltb_spec b 32768); lia.
Qed.

(** X15. A poll that delivers fewer than two bytes never starts a
    recording: with no byte the sample keeps its initial 0, and a single
    byte only fills the low half of the sample, which then is at most
    255. *)
Theorem X15_short_poll_is_quiet (e : tick_env) :
  Forall is_byte (mic_poll e) ->
  (length (mic_poll e) < 2)%nat ->
  sound_detected e = false
  /\ forall st, recording_entered (snd (loop st e)) = false.
Proof.
  intros Hbytes Hlen.
  assert (Hq : sound_detected e = false).
  { unfold sound_detected, i2s_read. change (Z.to_nat 2) with 2%nat.
    rewrite take_ge by lia.
    destruct (mic_poll e) as [|b [|b' l]]; [reflexivity| |cbn in Hlen; lia].
    apply Forall_cons in Hbytes as [Hb _].
    rewrite (byte_poll_sample b Hb). unfold is_byte in Hb.
    apply andb_false_iff. right. apply Z.ltb_ge. unfold SOUND_THRESHOLD. lia. }
  split; [exact Hq|]. intros st. unfold loop.
  destruct (negb (camera_status st && sd_status st)); [reflexivity|].
  rewrite Hq. unfold recording_entered.
  destruct (photo_due st e); cbn [snd]; rewrite ?existsb_app.
  - fold (recording_entered (photo_save (image_name (fileCount st)) e)).
    now rewrite photo_save_no_malloc.
  - reflexivity.
Qed.

Lemma X15_short_poll_is_quiet_witness :
  let e := {| clock_ms := 0; frame := None; img_open := false;
              mic_poll := [255]; wav_open := true;
              heap_block := Some fresh_block; mic_bulk := [] |} in
  sound_detected e = false.
Proof.
  intros e. apply (X15_short_poll_is_quiet e).
  - repeat constructor; unfold is_byte; lia.
  - cbn. lia.
Defined.

(** ** Whole runs *)

Lemma run_snd_cons st e es :
  snd (run st (e :: es)) = snd (loop st e) ++ snd (run (fst (loop st e)) es).
Proof. now rewrite run_cons. Qed.

Lemma sd_step_other sd ev q : touches ev <> Some q -> sd_step sd ev !! q = sd !! q.
Proof.
  destruct ev as [| |p [|]|p [|] d| | | | |]; cbn; intros H; try reflexivity;
    apply lookup_insert_ne; congruence.
Qed.

Lemma sd_after_other tr : forall sd q,
  Forall (fun ev => touches ev <> Some q) tr -> sd_after sd tr !! q = sd !! q.
Proof.
  induction tr as [|ev tr IH]; intros sd q H; [reflexivity|].
  apply Forall_cons in H as [Hev Htr].
  change (sd_after sd (ev :: tr)) with (sd_after (sd_step sd ev) tr).
  rewrite IH by exact Htr. now apply sd_step_other.
Qed.

Lemma photo_save_named n e : named (photo_save (image_name n) e).
Proof.
  unfold named, photo_save, writeFile.
  destruct (frame e), (img_open e); cbn [app];
    repeat (apply Forall_cons_2;
            [cbn; intros p H; try discriminate; inversion H; left; eauto|]);
    apply Forall_nil_2.
Qed.

Lemma record_wav_named n e : named (record_wav (audio_name n) e).
Proof.
  unfold named. rewrite record_wav_events.
  destruct (heap_block e); cbn [app];
    repeat (apply Forall_cons_2;
            [cbn; intros p H; try discriminate; inversion H; right; eauto|]);
    apply Forall_nil_2.
Qed.

Lemma named_app tr1 tr2 : named tr1 -> named tr2 -> named (tr1 ++ tr2).
Proof. intros H1 H2. apply Forall_app. now split. Qed.

Lemma loop_named st e : named (snd (loop st e)).
Proof.
  unfold loop. destruct (negb (camera_status st && sd_status st)); [constructor|].
  assert (Hpoll : named [EvRead 2 false (i2s_read 2 (mic_poll e))])
    by (apply Forall_cons_2; [cbn; discriminate | apply Forall_nil_2]).
  assert (Hdelay : named [EvDelay 1000])
    by (apply Forall_cons_2; [cbn; discriminate | apply Forall_nil_2]).
  assert (Hnil : named []) by apply Forall_nil_2.
  destruct (photo_due st e), (sound_detected e); cbn [snd fst fileCount];
    repeat apply named_app;
    auto using photo_save_named, record_wav_named.
Qed.

Lemma run_named es : forall st, named (snd (run st es)).
Proof.
  induction es as [|e es IH]; intros st; [constructor|].
  rewrite run_snd_cons. apply named_app; [apply loop_named | apply IH].
Qed.

(** X7. No run of the sketch ever creates, truncates or extends a file
    whose name is not of the form /image<N>.jpg or /audio<N>.wav: whatever
    else is on the card stays as it is. *)
Theorem X7_other_files_untouched (st : state) (es : list tick_env)
    (sd : gmap string (list Z)) (q : string) :
  ~ is_capture_name q ->
  sd_after sd (snd (run st es)) !! q = sd !! q.
Proof.
  intros Hq. apply sd_after_other.
  eapply Forall_impl; [apply run_named|].
  cbn. intros ev Hev Ht. apply Hq, Hev, Ht.
Qed.

Lemma X7_other_files_untouched_witness :
  sd_after {[ "/notes.txt" := [1; 2; 3] ]}
    (snd (run booted [quiet_at 10000; loud_at 12000])) !! "/notes.txt" =
  Some [1; 2; 3].
Proof.
  rewrite (X7_other_files_untouched booted [quiet_at 10000; loud_at 12000]
             {[ "/notes.txt" := [1; 2; 3] ]} "/notes.txt").
  - vm_compute. reflexivity.
  - intros [[n H] | [n H]]; unfold image_name, audio_name in H;
      cbv [String.append] in H; discriminate.
Defined.

Lemma count_ev_app f tr1 tr2 :
  count_ev f (tr1 ++ tr2) = (count_ev f tr1 + count_ev f tr2)%nat.
Proof. unfold count_ev. now rewrite List.filter_app, length_app. Qed.

Lemma balanced_app tr1 tr2 : balanced tr1 -> balanced tr2 -> balanced (tr1 ++ tr2).
Proof. unfold balanced. rewrite !count_ev_app. intros [? ?] [? ?]. lia. Qed.

Lemma photo_save_balanced p e : balanced (photo_save p e).
Proof. unfold photo_save, writeFile. now destruct (frame e), (img_open e). Qed.

Lemma record_wav_balanced p e : balanced (record_wav p e).
Proof. rewrite record_wav_events. now destruct (heap_block e). Qed.

Lemma loop_balanced st e : balanced (snd (loop st e)).
Proof.
  unfold loop. destruct (negb (camera_status st && sd_status st)); [now split|].
  assert (Hpoll : balanced [EvRead 2 false (i2s_read 2 (mic_poll e))]) by now split.
  assert (Hdelay : balanced [EvDelay 1000]) by now split.
  assert (Hnil : balanced []) by now split.
  destruct (photo_due st e), (sound_detected e); cbn [snd fst fileCount];
    repeat apply balanced_app;
    auto using photo_save_balanced, record_wav_balanced.
Qed.

(** X12. Over any run, every frame buffer obtained from the camera is
    handed back and every buffer obtained from [ps_malloc] is freed, also
    when the file could not be opened or the read came back short. *)
Theorem X12_run_balanced (st : state) (es : list tick_env) :
  count_ev is_fb_return (snd (run st es)) = count_ev is_fb_got (snd (run st es))
  /\ count_ev is_free (snd (run st es)) = count_ev is_malloc_ok (snd (run st es)).
Proof.
  revert st. induction es as [|e es IH]; intros st; [now split|].
  rewrite run_snd_cons. apply balanced_app; [apply loop_balanced | apply IH].
Qed.

Lemma count_poll_photo_save p e : count_ev is_poll (photo_save p e) = 0%nat.
Proof. unfold photo_save, writeFile. now destruct (frame e), (img_open e). Qed.

Lemma count_poll_record_wav p e : count_ev is_poll (record_wav p e) = 0%nat.
Proof. rewrite record_wav_events. now destruct (heap_block e). Qed.

Lemma count_delay_photo_save p e : count_ev is_delay (photo_save p e) = 0%nat.
Proof. unfold photo_save, writeFile. now destruct (frame e), (img_open e). Qed.

Lemma count_delay_record_wav p e : count_ev is_delay (record_wav p e) = 0%nat.
Proof. rewrite record_wav_events. now destruct (heap_block e). Qed.

Lemma loop_polls_once st e :
  state_ok st ->
  count_ev is_poll (snd (loop st e)) = 1%nat
  /\ count_ev is_delay (snd (loop st e)) = (if sound_detected e then 1 else 0)%nat.
Proof.
  intros [Hc Hs _ _]. unfold loop. rewrite Hc, Hs. cbn [andb negb].
  destruct (photo_due st e), (sound_detected e); cbn [snd fst fileCount];
    rewrite !count_ev_app, ?count_poll_photo_save, ?count_poll_record_wav,
      ?count_delay_photo_save, ?count_delay_record_wav; split; reflexivity.
Qed.

(** X14. Once [setup] has returned, the guard at the top of [loop] never
    fires: both status flags stay set, so every pass polls the microphone
    exactly once, a run of n passes polls n times, and a pass waits for the
    one-second delay exactly when it made a recording. *)
Theorem X14_every_pass_polls (st : state) (es : list tick_env) :
  reachable st ->
  camera_status st && sd_status st = true
  /\ (forall e, count_ev is_poll (snd (loop st e)) = 1%nat
             /\ count_ev is_delay (snd (loop st e)) =
                (if recording_entered (snd (loop st e)) then 1 else 0)%nat)
  /\ count_ev is_poll (snd (run st es)) = length es.
Proof.
  intros Hr. pose proof (reachable_ok st Hr) as Hok. split; [|split].
  - destruct Hok as [-> -> _ _]. reflexivity.
  - intros e. rewrite loop_recording_entered by exact Hok.
    now apply loop_polls_once.
  - clear Hr. revert st Hok. induction es as [|e es IH]; intros st Hok; [reflexivity|].
    rewrite run_snd_cons, count_ev_app.
    rewrite (proj1 (loop_polls_once st e Hok)).
    rewrite IH by now apply loop_state_ok. reflexivity.
Qed.

Lemma X14_every_pass_polls_witness :
  count_ev is_poll (snd (run booted [quiet_at 0; loud_at 5000; quiet_at 16000])) = 3%nat.
Proof.
  assert (Hr : reachable booted) by (apply (reach_setup good_boot); reflexivity).
  exact (proj2 (proj2 (X14_every_pass_polls booted
                         [quiet_at 0; loud_at 5000; quiet_at 16000] Hr))).
Defined.

(** X18. A photo that fails still uses up its turn: when the photo is due
    but the camera delivers no frame, or the card does not open the file,
    the card is left unchanged, yet the counter moves on by one and the
    timestamp is set to [now], so the index is skipped and the photo is not
    tried again before another [PHOTO_INTERVAL] has passed. *)
Theorem X18_failed_photo_uses_index (st : state) (e : tick_env) (sd : gmap string (list Z)) :
  reachable st ->
  photo_due st e = true ->
  sound_detected e = false ->
  frame e = None \/ img_open e = false ->
  fileCount st + 1 < 2 ^ 31 ->
  sd_after sd (snd (loop st e)) = sd
  /\ fileCount (fst (loop st e)) = fileCount st + 1
  /\ lastPhotoTime (fst (loop st e)) = millis e
  /\ forall e', millis e' = millis e ->
       photo_triggered (snd (loop (fst (loop st e)) e')) = false.
Proof.
  intros Hr Hdue Hquiet Hfail Hroom. pose proof (reachable_ok st Hr) as Hok.
  pose proof (loop_state_ok st e Hok) as Hok'.
  assert (Hlast : lastPhotoTime (fst (loop st e)) = millis e)
    by (rewrite loop_lastPhotoTime, Hdue by exact Hok; reflexivity).
  repeat split.
  - destruct Hok as [Hc Hs Hn _]. unfold loop. rewrite Hc, Hs, Hdue, Hquiet.
    cbn [andb negb snd]. rewrite sd_after_app, sd_after_photo_save.
    destruct Hfail as [-> | ->]; [reflexivity|]. now destruct (frame e).
  - destruct Hok as [Hc Hs Hn _]. unfold loop. rewrite Hc, Hs, Hdue, Hquiet.
    cbn [andb negb fst fileCount]. apply s32_small. lia.
  - exact Hlast.
  - intros e' He'. rewrite loop_photo_triggered by exact Hok'.
    unfold photo_due. now rewrite Hlast, He', sub32_same.
Qed.

Lemma X18_failed_photo_uses_index_witness :
  let e := {| clock_ms := 10000; frame := None; img_open := true;
              mic_poll := []; wav_open := true;
              heap_block := Some fresh_block; mic_bulk := [] |} in
  sd_after ∅ (snd (loop booted e)) = ∅ /\ fileCount (fst (loop booted e)) = 2.
Proof.
  intros e.
  assert (Hr : reachable booted) by (apply (reach_setup good_boot); reflexivity).
  destruct (X18_failed_photo_uses_index booted e ∅ Hr) as (Hsd & Hc & _);
    [reflexivity | reflexivity | left; reflexivity | vm_compute; reflexivity |].
  split; [exact Hsd | exact Hc].
Defined.

Lemma loop_quiet st e :
  sound_detected e = false ->
  recording_entered (snd (loop st e)) = false
  /\ count_ev is_delay (snd (loop st e)) = 0%nat
  /\ Forall (fun p => exists n, p = image_name n) (opened (snd (loop st e))).
Proof.
  intros Hq. unfold loop.
  destruct (negb (camera_status st && sd_status st)); [now repeat split|].
  rewrite Hq. destruct (photo_due st e); cbn [snd]; [|now repeat split].
  unfold recording_entered. rewrite existsb_app, count_ev_app, opened_app.
  fold (recording_entered (photo_save (image_name (fileCount st)) e)).
  rewrite photo_save_no_malloc, count_delay_photo_save.
  repeat split. apply Forall_app. split; [|constructor].
  destruct (opened_photo_save (fileCount st) e) as [-> | ->]; repeat constructor.
  now exists (fileCount st).
Qed.

(** X19. As long as no pass detects a sound, the sketch only takes photos:
    no buffer is asked for, no delay is made, and every file opened is an
    image file. *)
Theorem X19_quiet_run_only_photos (st : state) (es : list tick_env) :
  Forall (fun e => sound_detected e = false) es ->
  recording_entered (snd (run st es)) = false
  /\ count_ev is_delay (snd (run st es)) = 0%nat
  /\ Forall (fun p => exists n, p = image_name n) (opened (snd (run st es))).
Proof.
  revert st. induction es as [|e es IH]; intros st Hq; [now repeat split|].
  apply Forall_cons in Hq as [He Hes].
  destruct (loop_quiet st e He) as (H1 & H2 & H3).
  destruct (IH (fst (loop st e)) Hes) as (I1 & I2 & I3).
  rewrite run_snd_cons. unfold recording_entered in *.
  rewrite existsb_app, count_ev_app, opened_app, H1, H2, I1, I2.
  repeat split. apply Forall_app. now split.
Qed.

Lemma X19_quiet_run_only_photos_witness :
  opened (snd (run booted [quiet_at 0; quiet_at 5000; quiet_at 10000; quiet_at 15000])) =
    ["/image1.jpg"]
  /\ recording_entered
       (snd (run booted [quiet_at 0; quiet_at 5000; quiet_at 10000; quiet_at 15000])) = false.
Proof.
  split; [vm_compute; reflexivity|].
  apply (X19_quiet_run_only_photos booted).
  repeat constructor.
Defined.

(** ** File names *)

Lemma string_length_app s t :
  String.length (s +:+ t) = (String.length s + String.length t)%nat.
Proof.
  induction s as [|a s IH]; [reflexivity|].
  change (String a s +:+ t) with (String a (s +:+ t)).
  cbn [String.length Nat.add]. now rewrite IH.
Qed.

Lemma string_app_cancel_r t : forall s1 s2, s1 +:+ t = s2 +:+ t -> s1 = s2.
Proof.
  induction s1 as [|a s1 IH]; intros [|b s2] H.
  - reflexivity.
  - apply (f_equal String.length) in H.
    rewrite !string_length_app in H. cbn [String.length] in H. lia.
  - apply (f_equal String.length) in H.
    rewrite !string_length_app in H. cbn [String.length] in H. lia.
  - change (String a (s1 +:+ t) = String b (s2 +:+ t)) in H.
    injection H as -> H. f_equal. now apply IH.
Qed.

Lemma file_name_inj k1 k2 : file_name k1 = file_name k2 -> k1 = k2.
Proof.
  destruct k1 as [[|] n1], k2 as [[|] n2]; unfold file_name, image_name, audio_name;
    cbn [fst snd]; intros H.
  - apply String.app_inj, string_app_cancel_r in H.
    apply pretty_Z_inj in H. now subst.
  - cbv [String.append] in H. discriminate.
  - cbv [String.append] in H. discriminate.
  - apply String.app_inj, string_app_cancel_r in H.
    apply pretty_Z_inj in H. now subst.
Qed.

(** X16. Within the range of [int], no two files opened in a run have the
    same name, a photo and a recording never share a name, and different
    indices never print to the same name: no capture of a session
    truncates an earlier one. *)
Theorem X16_names_unique (st : state) (es : list tick_env) :
  reachable st ->
  fileCount st + Z.of_nat (attempts (snd (run st es))) < 2 ^ 31 ->
  NoDup (opened (snd (run st es)))
  /\ (forall n m, image_name n <> audio_name m)
  /\ (forall n m, image_name n = image_name m -> n = m)
  /\ (forall n m, audio_name n = audio_name m -> n = m).
Proof.
  intros Hr Hroom. pose proof (reachable_ok st Hr) as Hok.
  destruct (run_counter es st Hok Hroom) as (_ & ks & Ho & Hs & _).
  split; [|split; [|split]].
  - rewrite Ho. apply (NoDup_fmap_2 (A:=bool * Z)); [intros ? ?; apply file_name_inj|].
    apply (NoDup_fmap_1 snd). now apply increasing_NoDup.
  - intros n m H. unfold image_name, audio_name in H.
    cbv [String.append] in H. discriminate.
  - intros n m H. now apply (file_name_inj (true, n) (true, m)) in H as [= ->].
  - intros n m H. now apply (file_name_inj (false, n) (false, m)) in H as [= ->].
Qed.

Lemma X16_names_unique_witness :
  NoDup (opened (snd (run booted [quiet_at 10000; loud_at 12000; loud_at 30000]))).
Proof.
  assert (Hr : reachable booted) by (apply (reach_setup good_boot); reflexivity).
  apply (X16_names_unique booted [quiet_at 10000; loud_at 12000; loud_at 30000] Hr).
  vm_compute. reflexivity.
Defined.

Lemma pretty_N_go_length (k : nat) : forall x s,
  (x < 10 ^ N.of_nat k)%N ->
  (String.length (pretty_N_go x s) <= k + String.length s)%nat.
Proof.
  induction k as [|k IH]; intros x s Hx.
  - assert (x = 0%N) as -> by (cbn in Hx; lia). rewrite pretty_N_go_0. lia.
  - destruct (N.eq_dec x 0%N) as [-> | Hnz]; [rewrite pretty_N_go_0; lia|].
    rewrite pretty_N_go_step by lia.
    etransitivity; [apply IH|cbn; lia].
    apply N.Div0.div_lt_upper_bound.
    rewrite Nat2N.inj_succ, N.pow_succ_r' in Hx. exact Hx.
Qed.

Lemma pretty_int_length n :
  - 2 ^ 31 <= n < 2 ^ 31 -> (String.length (pretty n) <= 11)%nat.
Proof.
  intros Hn. destruct n as [|p|p]; unfold pretty, pretty_Z.
  - cbn. lia.
  - unfold pretty, pretty_positive, pretty, pretty_N.
    destruct (decide (N.pos p = 0%N)); [cbn; lia|].
    pose proof (pretty_N_go_length 10 (N.pos p) "") as H.
    cbn [String.length] in H. etransitivity; [apply H|lia].
    change (10 ^ N.of_nat 10)%N with 10000000000%N. lia.
  - rewrite string_length_app. cbn [String.length].
    unfold pretty, pretty_positive, pretty, pretty_N.
    destruct (decide (N.pos p = 0%N)); [cbn; lia|].
    pose proof (pretty_N_go_length 10 (N.pos p) "") as H.
    cbn [String.length] in H.
    assert (String.length (pretty_N_go (N.pos p) "") <= 10)%nat; [|lia].
    etransitivity; [apply H|lia].
    change (10 ^ N.of_nat 10)%N with 10000000000%N. lia.
Qed.

(** X17. The names fit their buffers: for every value of the [int] counter
    the name printed by [sprintf] has at most 21 characters, so with the
    terminating zero it stays within the 32 bytes of [imgFile] and
    [audioFile], in every pass the sketch can make. *)
Theorem X17_names_fit_buffer (st : state) (e : tick_env) :
  reachable st ->
  (forall n, - 2 ^ 31 <= n < 2 ^ 31 ->
     (String.length (image_name n) + 1 <= 32)%nat
     /\ (String.length (audio_name n) + 1 <= 32)%nat)
  /\ (String.length (image_name (fileCount st)) <= 21)%nat
  /\ (String.length (audio_name (fileCount (fst (loop st (silenced e))))) <= 21)%nat.
Proof.
  intros Hr.
  assert (Hfit : forall n, - 2 ^ 31 <= n < 2 ^ 31 ->
            (String.length (image_name n) <= 21)%nat
            /\ (String.length (audio_name n) <= 21)%nat).
  { intros n Hn. pose proof (pretty_int_length n Hn).
    unfold image_name, audio_name. rewrite !string_length_app. cbn [String.length]. lia. }
  pose proof (reachable_ok st Hr) as Hok.
  pose proof (loop_state_ok st (silenced e) Hok) as Hok'.
  split; [|split].
  - intros n Hn. destruct (Hfit n Hn). lia.
  - apply Hfit, Hok.
  - apply Hfit, Hok'.
Qed.

Lemma X17_names_fit_buffer_witness :
  String.length (image_name (-2147483648)) = 21%nat
  /\ (String.length (image_name (-2147483648)) + 1 <= 32)%nat.
Proof.
  assert (Hr : reachable booted) by (apply (reach_setup good_boot); reflexivity).
  split; [vm_compute; reflexivity|].
  apply (X17_names_fit_buffer booted (quiet_at 0) Hr). lia.
Defined.

(** ** Start-up, full passes and refused buffers *)

Lemma loop_before_interval st e :
  state_ok st ->
  lastPhotoTime st = 0 ->
  0 <= clock_ms e < PHOTO_INTERVAL ->
  photo_triggered (snd (loop st e)) = false /\ lastPhotoTime (fst (loop st e)) = 0.
Proof.
  intros Hok Hl Hc.
  assert (Hdue : photo_due st e = false).
  { unfold photo_due, millis. rewrite Hl. unfold sub32.
    rewrite Z.sub_0_r. unfold u32. rewrite Z.mod_mod by lia.
    rewrite Z.mod_small by (unfold PHOTO_INTERVAL in Hc; lia).
    apply Z.leb_gt. lia. }
  rewrite loop_photo_triggered, loop_lastPhotoTime, Hdue by exact Hok. now split.
Qed.

(** X20. After start-up the first photo waits for the clock to reach
    [PHOTO_INTERVAL]: passes that read a clock below it take no photo and
    leave the timestamp at 0, whatever the microphone does, and the first
    pass that reads a clock of at least [PHOTO_INTERVAL] takes one. *)
Theorem X20_first_photo_at_interval (es : list tick_env) (e : tick_env) :
  Forall (fun e' => 0 <= clock_ms e' < PHOTO_INTERVAL) es ->
  PHOTO_INTERVAL <= clock_ms e < 2 ^ 32 ->
  photo_triggered (snd (run booted es)) = false
  /\ lastPhotoTime (fst (run booted es)) = 0
  /\ photo_triggered (snd (loop (fst (run booted es)) e)) = true.
Proof.
  intros Hes He.
  assert (Hgen : forall st, state_ok st -> lastPhotoTime st = 0 ->
            photo_triggered (snd (run st es)) = false
            /\ lastPhotoTime (fst (run st es)) = 0
            /\ state_ok (fst (run st es))).
  { induction es as [|e' es IH]; intros st Hok Hl;
      [split; [reflexivity | split; [exact Hl | exact Hok]]|].
    apply Forall_cons in Hes as [He' Hes].
    destruct (loop_before_interval st e' Hok Hl He') as [H1 H2].
    destruct (IH Hes (fst (loop st e')) (loop_state_ok st e' Hok) H2) as (I1 & I2 & I3).
    rewrite run_cons. cbn [fst snd]. unfold photo_triggered in *.
    now rewrite existsb_app, H1, I1. }
  destruct (Hgen booted) as (H1 & H2 & H3);
    [apply reachable_ok, (reach_setup good_boot); reflexivity | reflexivity |].
  split; [exact H1|]. split; [exact H2|].
  rewrite loop_photo_triggered by exact H3.
  unfold photo_due, millis. rewrite H2. unfold sub32.
  rewrite Z.sub_0_r. unfold u32.
  rewrite Z.mod_mod, Z.mod_small by (unfold PHOTO_INTERVAL in He; lia).
  apply Z.leb_le. lia.
Qed.

Lemma X20_first_photo_at_interval_witness :
  photo_triggered (snd (run booted [quiet_at 0; loud_at 5000])) = false
  /\ photo_triggered
       (snd (loop (fst (run booted [quiet_at 0; loud_at 5000])) (quiet_at 16500))) = true.
Proof.
  destruct (X20_first_photo_at_interval [quiet_at 0; loud_at 5000] (quiet_at 16500))
    as (H1 & _ & H3).
  - repeat constructor; vm_compute; discriminate.
  - split; vm_compute; [discriminate | reflexivity].
  - split; [exact H1 | exact H3].
Defined.

(** X21. A pass in which the photo is due and a sound is detected, with
    camera, card and heap all answering, leaves two files: the frame under
    the image name with the index the counter had, and the header followed
    by the recorded payload under the audio name with the next index; the
    counter ends two higher. *)
Theorem X21_pass_with_photo_and_recording (st : state) (e : tick_env)
    (buf : list Z) (sd : gmap string (list Z)) :
  reachable st ->
  fileCount st + 2 < 2 ^ 31 ->
  photo_due st e = true ->
  sound_detected e = true ->
  frame e = Some buf ->
  img_open e = true ->
  wav_open e = true ->
  sd_after sd (snd (loop st e)) =
    <[audio_name (fileCount st + 1) :=
        generate_wav_header record_size SAMPLE_RATE ++ payload_of e]>
      (<[image_name (fileCount st) := buf]> sd)
  /\ fileCount (fst (loop st e)) = fileCount st + 2
  /\ opened (snd (loop st e)) =
       [image_name (fileCount st); audio_name (fileCount st + 1)].
Proof.
  intros Hr Hroom Hdue Hsound Hf Hio Hwo.
  destruct (reachable_ok st Hr) as [Hc Hs Hn _].
  unfold loop. rewrite Hc, Hs, Hdue, Hsound. cbn [andb negb fst snd fileCount].
  rewrite (s32_small (fileCount st + 1)) by lia.
  rewrite (s32_small (fileCount st + 1 + 1)) by lia.
  split; [|split; [lia|]].
  - rewrite !sd_after_app, sd_after_photo_save, Hf, Hio.
    rewrite sd_after_record_wav_full, Hwo. reflexivity.
  - rewrite !opened_app, opened_record_wav.
    unfold photo_save, writeFile. rewrite Hf, Hio. reflexivity.
Qed.

Lemma X21_pass_with_photo_and_recording_witness :
  opened (snd (loop booted (loud_at 10000))) = ["/image1.jpg"; "/audio2.wav"]
  /\ fileCount (fst (loop booted (loud_at 10000))) = 3.
Proof.
  assert (Hr : reachable booted) by (apply (reach_setup good_boot); reflexivity).
  destruct (X21_pass_with_photo_and_recording booted (loud_at 10000) jpeg_stub ∅ Hr)
    as (_ & Hc & Ho); try reflexivity.
  split; [exact Ho | exact Hc].
Defined.

(** X22. When [ps_malloc] returns NULL, [record_wav] stops right there: no
    blocking read is made, nothing is freed, [file.close] is not called,
    and the only write is the header, which on a card that opened the file
    is all the file holds. *)
Theorem X22_refused_buffer_stops_recording (p : string) (e : tick_env)
    (sd : gmap string (list Z)) :
  heap_block e = None ->
  record_wav p e =
    [EvOpen p (wav_open e);
     EvWrite p (wav_open e) (generate_wav_header record_size SAMPLE_RATE);
     EvMalloc record_size false]
  /\ writes_to p (record_wav p e) = [generate_wav_header record_size SAMPLE_RATE]
  /\ (forall ev, In ev (record_wav p e) ->
        ev <> EvClose p /\ ev <> EvFree /\
        forall size got, ev <> EvRead size true got)
  /\ sd_after sd (record_wav p e) =
       if wav_open e then <[p := generate_wav_header record_size SAMPLE_RATE]> sd else sd.
Proof.
  intros Hb. rewrite sd_after_record_wav_full. unfold payload_of.
  rewrite (record_wav_refused p e Hb), Hb, app_nil_r.
  split; [reflexivity|]. split; [|split; [|reflexivity]].
  - unfold writes_to. cbn. destruct (decide (p = p)); [reflexivity|contradiction].
  - intros ev [<- | [<- | [<- | []]]]; repeat split; try discriminate;
      intros; discriminate.
Qed.

Lemma X22_refused_buffer_stops_recording_witness :
  writes_to "/audio1.wav" (record_wav "/audio1.wav" alloc_refused) =
  [generate_wav_header record_size SAMPLE_RATE].
Proof.
  exact (proj1 (proj2 (X22_refused_buffer_stops_recording
                         "/audio1.wav" alloc_refused ∅ eq_refl))).
Defined.
